(** * Minesweeper knowledge engine: [Sentence] and [MinesweeperAI]

    A shallow embedding of [projects/2023/x/minesweeper/minesweeper.py].

    - A cell is a pair of Python integers [(i, j)], here [Z * Z].
    - A Python [set] of cells is a [gset Cell].  Where the source iterates
      over a set and the result depends on the order of iteration, the
      order is an explicit list that enumerates the set, and the theorems
      quantify over every such list.
    - [Sentence] objects are shared and mutated in place ([knowledge]
      holds references to them), so they live in a heap: a list of
      sentence values addressed by position.  [copy.deepcopy] allocates a
      fresh position. *)

From stdpp Require Import base decidable numbers list list_numbers gmap sets fin_sets.

Local Open Scope Z_scope.

#[local] Set Warnings "-clear-no-such-hyp".

(** ** Cells and sets of cells *)

Abbreviation Cell := (Z * Z)%type (only parsing).

(** Python's [len] of a set, as a Python integer. *)
Definition len (X : gset Cell) : Z := Z.of_nat (size X).

(** Python's [range(a, b)]. *)
Definition range (a b : Z) : list Z := seqZ a (b - a).

(** A list [o] is a possible order of [for x in X] over the set [X]. *)
Definition enumerates (o : list Cell) (X : gset Cell) : Prop :=
  NoDup o ∧ list_to_set o = X.

#[global] Instance enumerates_dec o X : Decision (enumerates o X).
Proof. unfold enumerates. apply _. Defined.

(** ** class Sentence *)

Record Sentence : Type := mkSentence {
  cells : gset Cell;
  count : Z
}.

#[global] Instance Sentence_inhabited : Inhabited Sentence :=
  populate (mkSentence ∅ 0).

(** [Sentence.__eq__] *)
#[global] Instance Sentence_eq_dec : EqDecision Sentence.
Proof. solve_decision. Defined.

Module Sentence.

(** [Sentence.__init__(cells, count)]: [set(cells)] copies the argument. *)
Definition init (cs : gset Cell) (n : Z) : Sentence := mkSentence cs n.

(** [known_mines]: a generator over the cells when
    [count == len(cells)]; otherwise the method falls off its end and
    returns [None]. *)
Definition known_mines (self : Sentence) : option (gset Cell) :=
  if decide (count self = len (cells self)) then Some (cells self) else None.

(** [known_safes] *)
Definition known_safes (self : Sentence) : option (gset Cell) :=
  if decide (count self = 0) then Some (cells self) else None.

(** [mark_mine] *)
Definition mark_mine (cell : Cell) (self : Sentence) : Sentence :=
  if decide (cell ∈ cells self ∧ count self > 0)
  then mkSentence (cells self ∖ {[cell]}) (count self - 1)
  else self.

(** [mark_safe] *)
Definition mark_safe (cell : Cell) (self : Sentence) : Sentence :=
  if decide (cell ∈ cells self ∧ count self > 0)
  then mkSentence (cells self ∖ {[cell]}) (count self)
  else self.

(** The invariant of the data model: [0 <= count <= |cells|]. *)
Definition well_formed (s : Sentence) : Prop :=
  0 ≤ count s ≤ len (cells s).

End Sentence.

(** In-place updates of a sentence's two fields. *)
Definition remove_cell (cell : Cell) (s : Sentence) : Sentence :=
  mkSentence (cells s ∖ {[cell]}) (count s).

Definition decr_count (s : Sentence) : Sentence :=
  mkSentence (cells s) (count s - 1).

(** ** class Minesweeper (the board the solver plays on) *)

Module Minesweeper.

Record game : Type := mkGame {
  height : Z;
  width : Z;
  board : list (list bool)
}.

(** What [__init__] builds: [height] rows of [width] booleans. *)
Definition well_formed (g : game) : Prop :=
  0 ≤ height g ∧ 0 ≤ width g ∧
  length (board g) = Z.to_nat (height g) ∧
  Forall (λ row, length row = Z.to_nat (width g)) (board g).

(** [self.board[i][j]], read only at indices inside the board. *)
Definition board_at (g : game) (i j : Z) : bool :=
  default false (row ← board g !! Z.to_nat i; row !! Z.to_nat j).

Definition in_bounds (g : game) (cell : Cell) : Prop :=
  0 ≤ cell.1 < height g ∧ 0 ≤ cell.2 < width g.

#[global] Instance in_bounds_dec g cell : Decision (in_bounds g cell).
Proof. unfold in_bounds. apply _. Defined.

(** [is_mine] *)
Definition is_mine (g : game) (cell : Cell) : bool :=
  board_at g cell.1 cell.2.

(** [nearby_mines] *)
Definition nearby_mines (g : game) (cell : Cell) : Z :=
  foldl (λ count ij,
           if decide (ij = cell) then count
           else if decide (in_bounds g ij)
                then (if board_at g ij.1 ij.2 then count + 1 else count)
                else count)
        0
        (i ← range (cell.1 - 1) (cell.1 + 2);
         j ← range (cell.2 - 1) (cell.2 + 2); [(i, j)]).

End Minesweeper.

(** ** class MinesweeperAI *)

Module MinesweeperAI.

(** The solver object together with the [Sentence] objects its
    references point to.  [knowledge] is the list of references. *)
Record state : Type := mkAI {
  heap : list Sentence;
  height : Z;
  width : Z;
  moves_made : gset Cell;
  mines : gset Cell;
  safes : gset Cell;
  knowledge : list nat
}.

Definition with_heap (f : list Sentence → list Sentence) (st : state) : state :=
  mkAI (f (heap st)) (height st) (width st) (moves_made st) (mines st)
       (safes st) (knowledge st).
Definition with_moves_made (f : gset Cell → gset Cell) (st : state) : state :=
  mkAI (heap st) (height st) (width st) (f (moves_made st)) (mines st)
       (safes st) (knowledge st).
Definition with_mines (f : gset Cell → gset Cell) (st : state) : state :=
  mkAI (heap st) (height st) (width st) (moves_made st) (f (mines st))
       (safes st) (knowledge st).
Definition with_safes (f : gset Cell → gset Cell) (st : state) : state :=
  mkAI (heap st) (height st) (width st) (moves_made st) (mines st)
       (f (safes st)) (knowledge st).
Definition with_knowledge (f : list nat → list nat) (st : state) : state :=
  mkAI (heap st) (height st) (width st) (moves_made st) (mines st)
       (safes st) (f (knowledge st)).

(** Reading and mutating the object a reference points to; creating a
    new object.  The references the solver holds always point to an object
    ([valid_refs] below); at any other position [deref] yields the
    inhabitant and [mutate] does nothing. *)
Definition deref (st : state) (r : nat) : Sentence := heap st !!! r.
Definition mutate (r : nat) (f : Sentence → Sentence) (st : state) : state :=
  with_heap (alter f r) st.
Definition alloc (s : Sentence) (st : state) : nat * state :=
  (length (heap st), with_heap (λ h, h ++ [s]) st).

(** [set.add] *)
Definition add (x : Cell) (X : gset Cell) : gset Cell := {[x]} ∪ X.
(** [set.remove], called only on members. *)
Definition remove (x : Cell) (X : gset Cell) : gset Cell := X ∖ {[x]}.

(** [__init__(height, width)] *)
Definition init (h w : Z) : state := mkAI [] h w ∅ ∅ ∅ [].

(** [_get_all_cells] *)
Definition _get_all_cells (self : state) : gset Cell :=
  list_to_set (i ← range 0 (height self); j ← range 0 (width self); [(i, j)]).

(** [_get_surrounding_cells] *)
Definition _get_surrounding_cells (self : state) (cell : Cell) : gset Cell :=
  let border_height_max := Z.min (height self) (cell.1 + 1) in
  let border_height_min := Z.max 0 (cell.1 - 1) in
  let border_width_max := Z.min (width self) (cell.2 + 1) in
  let border_width_min := Z.max 0 (cell.2 - 1) in
  list_to_set
    (i ← range border_height_min (border_height_max + 1);
     j ← range border_width_min (border_width_max + 1);
     if decide ((i, j) ≠ cell) then [(i, j)] else []).

(** [mark_mine]: broadcast to every stored sentence. *)
Definition mark_mine (cell : Cell) (self : state) : state :=
  foldl (λ st sentence, mutate sentence (Sentence.mark_mine cell) st)
        (with_mines (add cell) self) (knowledge self).

(** [mark_safe] *)
Definition mark_safe (cell : Cell) (self : state) : state :=
  foldl (λ st sentence, mutate sentence (Sentence.mark_safe cell) st)
        (with_safes (add cell) self) (knowledge self).

(** *** add_knowledge, lines 216-222: record the move, build the new
    sentence and append it *)
Definition add_knowledge_append (cell : Cell) (count : Z) (self : state)
  : nat * gset Cell * state :=
  let st := with_moves_made (add cell) self in
  let st := with_safes (add cell) st in
  let surr_cells := _get_surrounding_cells st cell in
  let '(new_sentence, st) := alloc (Sentence.init surr_cells count) st in
  let st := with_knowledge (λ k, k ++ [new_sentence]) st in
  (new_sentence, surr_cells, st).

(** Body of the loop of lines 225-229. *)
Definition safe_step (new_sentence : nat) (st : state) (surr_cell : Cell) : state :=
  let st := mutate new_sentence (Sentence.mark_safe surr_cell) st in
  let st := with_safes (add surr_cell) st in
  if decide (surr_cell ∈ mines st) then with_mines (remove surr_cell) st else st.

(** Body of the loop of lines 233-235. *)
Definition mine_step (new_sentence : nat) (st : state) (surr_cell : Cell) : state :=
  let st := mutate new_sentence (Sentence.mark_mine surr_cell) st in
  with_mines (add surr_cell) st.

(** Lines 216-235; [o4] and [o5] are the orders in which the two loops
    visit [surr_cells]. *)
Definition add_knowledge_mark (o4 o5 : list Cell) (cell : Cell) (count : Z)
    (self : state) : state :=
  let '(new_sentence, surr_cells, st) := add_knowledge_append cell count self in
  let st := if decide (count = 0)
            then foldl (safe_step new_sentence) st o4 else st in
  let st := if decide (count = len surr_cells)
            then foldl (mine_step new_sentence) st o5 else st in
  st.

(** *** _update_sentence *)

(** Lines 253-256: every cell of the copy becomes a mine; [temp_set]
    collects them. *)
Definition collect_mines (o : list Cell) (st : state) : state * gset Cell :=
  foldl (λ '(st, temp_set) cell, (with_mines (add cell) st, add cell temp_set))
        (st, ∅) o.

(** Lines 257-259. *)
Definition drain (dc : nat) (o : list Cell) (st : state) : state :=
  foldl (λ st cell, mutate dc decr_count (mutate dc (remove_cell cell) st)) st o.

(** Body of the loop over [self.safes], lines 251-259.  The two inner
    loops are run in the order of [elements]; their result is the same in
    every order ([collect_mines_spec], [drain_spec]). *)
Definition safes_step (dc : nat) (st : state) (safe : Cell) : state :=
  let st := if decide (safe ∈ cells (deref st dc))
            then mutate dc (remove_cell safe) st else st in
  if decide (len (cells (deref st dc)) = count (deref st dc)
             ∧ len (cells (deref st dc)) > 0)
  then
    let '(st, temp_set) := collect_mines (elements (cells (deref st dc))) st in
    drain dc (elements temp_set) st
  else st.

(** Lines 267-268. *)
Definition collect_safes (o : list Cell) (st : state) : state :=
  foldl (λ st cell, with_safes (add cell) st) st o.

(** Body of the loop over [self.mines], lines 263-268; the inner loop
    gives the same result in every order ([collect_safes_spec]). *)
Definition mines_step (dc : nat) (st : state) (mine : Cell) : state :=
  if decide (mine ∈ cells (deref st dc)) then
    let st := mutate dc (remove_cell mine) st in
    let st := mutate dc decr_count st in
    if decide (count (deref st dc) = 0 ∧ len (cells (deref st dc)) > 0)
    then collect_safes (elements (cells (deref st dc))) st
    else st
  else st.

(** The guard of line 247, evaluated right after the copy is made. *)
Definition update_guard (sentence dc : nat) (st : state) : Prop :=
  count (deref st dc) > 0 ∧ len (cells (deref st sentence)) > 0.

#[global] Instance update_guard_dec sentence dc st :
  Decision (update_guard sentence dc st).
Proof. unfold update_guard. apply _. Defined.

(** The state after the copy (line 246) and after the first loop. *)
Definition update_copy (sentence : nat) (self : state) : nat * state :=
  alloc (deref self sentence) self.

Definition update_after_safes (o1 : list Cell) (sentence : nat) (self : state)
  : nat * state :=
  let '(dc, st) := update_copy sentence self in
  (dc, foldl (safes_step dc) st o1).

(** [_update_sentence] when the two loops visit [self.safes] in the order
    [o1] and [self.mines] in the order [o2]. *)
Definition update_sentence_run (o1 o2 : list Cell) (sentence : nat)
    (self : state) : state :=
  let '(dc, st0) := update_copy sentence self in
  if decide (update_guard sentence dc st0) then
    let '(_, st1) := update_after_safes o1 sentence self in
    foldl (mines_step dc) st1 o2
  else st0.

(** [_update_sentence sentence self self']: a call on [self] can end in
    [self'].  The second loop starts from the mine set the first loop
    leaves behind. *)
Definition _update_sentence (sentence : nat) (self self' : state) : Prop :=
  ∃ o1 o2,
    enumerates o1 (safes self) ∧
    enumerates o2 (mines (update_after_safes o1 sentence self).2) ∧
    self' = update_sentence_run o1 o2 sentence self.

(** Lines 238-239: one sweep over [self.knowledge]. *)
Inductive propagate : list nat → state → state → Prop :=
| propagate_nil st :
    propagate [] st st
| propagate_cons sentence rest st st1 st2 :
    _update_sentence sentence st st1 →
    propagate rest st1 st2 →
    propagate (sentence :: rest) st st2.

(** [add_knowledge(cell, count)] *)
Definition add_knowledge (cell : Cell) (count : Z) (self self' : state) : Prop :=
  ∃ o4 o5,
    let surr_cells := _get_surrounding_cells self cell in
    let st := add_knowledge_mark o4 o5 cell count self in
    enumerates o4 surr_cells ∧ enumerates o5 surr_cells ∧
    propagate (knowledge st) st self'.

(** One run of each, visiting every set in the order of [elements]. *)
Definition update_sentence_exec (sentence : nat) (self : state) : state :=
  let o1 := elements (safes self) in
  let o2 := elements (mines (update_after_safes o1 sentence self).2) in
  update_sentence_run o1 o2 sentence self.

Definition propagate_exec (ks : list nat) (st : state) : state :=
  foldl (λ st sentence, update_sentence_exec sentence st) st ks.

Definition add_knowledge_exec (cell : Cell) (count : Z) (self : state) : state :=
  let o := elements (_get_surrounding_cells self cell) in
  let st := add_knowledge_mark o o cell count self in
  propagate_exec (knowledge st) st.

(** *** Move selection *)

(** [random.choice(seq)] on a non-empty list. *)
Definition random_choice (seq : list Cell) (x : Cell) : Prop := x ∈ seq.

(** Lines 280-283, with [o] the order in which [cells] is visited. *)
Definition save_moves (o : list Cell) (self : state) : list Cell :=
  filter (λ cell, (cell ∉ moves_made self) ∧ (cell ∈ safes self)) o.

(** [make_safe_move self r self']: the call returns [r] and leaves the
    solver in [self']. *)
Definition make_safe_move (self : state) (r : option Cell) (self' : state) : Prop :=
  ∃ o, enumerates o (_get_all_cells self) ∧
       self' = self ∧
       if decide (length (save_moves o self) = 0%nat) then r = None
       else ∃ x, random_choice (save_moves o self) x ∧ r = Some x.

(** Lines 299-302. *)
Definition potential_moves (o : list Cell) (self : state) : list Cell :=
  filter (λ cell, (cell ∉ moves_made self) ∧ (cell ∉ mines self)) o.

(** [make_random_move] *)
Definition make_random_move (self : state) (r : option Cell) (self' : state) : Prop :=
  ∃ r0 st0, make_safe_move self r0 st0 ∧
    if decide (r0 = None) then
      ∃ o, enumerates o (_get_all_cells st0) ∧
           self' = st0 ∧
           if decide (length (potential_moves o st0) = 0%nat) then r = None
           else ∃ x, random_choice (potential_moves o st0) x ∧ r = Some x
    else r = None ∧ self' = st0.

End MinesweeperAI.

Import MinesweeperAI.

(** * Notions used in the statements *)

(** Row in [[0, height)], column in [[0, width)]. *)
Definition on_board (st : state) (p : Cell) : Prop :=
  0 ≤ p.1 < height st ∧ 0 ≤ p.2 < width st.

#[global] Instance on_board_dec st p : Decision (on_board st p).
Proof. unfold on_board. apply _. Defined.

Definition chebyshev (p q : Cell) : Z :=
  Z.max (Z.abs (p.1 - q.1)) (Z.abs (p.2 - q.2)).

(** The neighbour set in the words of the specification: the cells of the
    board within Chebyshev distance 1 of [cell], other than [cell], that
    have not been revealed. *)
Definition unrevealed_neighbors (st : state) (cell : Cell) : gset Cell :=
  filter (λ p, chebyshev p cell ≤ 1 ∧ p ≠ cell ∧ p ∉ moves_made st)
         (_get_all_cells st).

(** [step_frame dc st st']: going from [st] to [st'] changed no field
    other than [mines] and [safes], which only grew, and no object other
    than the one at [dc]. *)
Record step_frame (dc : nat) (st st' : state) : Prop := mk_step_frame {
  sf_height : height st' = height st;
  sf_width : width st' = width st;
  sf_moves : moves_made st' = moves_made st;
  sf_knowledge : knowledge st' = knowledge st;
  sf_len : length (heap st') = length (heap st);
  sf_heap : ∀ r, r ≠ dc → heap st' !! r = heap st !! r;
  sf_mines : mines st ⊆ mines st';
  sf_safes : safes st ⊆ safes st'
}.

(** [grows st st']: the same, for a whole call: every object that existed
    is unchanged, new ones may have been created. *)
Record grows (st st' : state) : Prop := mk_grows {
  gr_height : height st' = height st;
  gr_width : width st' = width st;
  gr_moves : moves_made st' = moves_made st;
  gr_knowledge : knowledge st' = knowledge st;
  gr_heap : ∀ r s, heap st !! r = Some s → heap st' !! r = Some s;
  gr_mines : mines st ⊆ mines st';
  gr_safes : safes st ⊆ safes st'
}.

(** Every reference held in [knowledge] points to an object. *)
Definition valid_refs (st : state) : Prop :=
  Forall (λ r, (r < length (heap st))%nat) (knowledge st).

(** [mark_frame new st st']: only [mines], [safes] and the object at [new]
    changed, and [safes] only grew. *)
Record mark_frame (new : nat) (st st' : state) : Prop := mk_mark_frame {
  mf_height : height st' = height st;
  mf_width : width st' = width st;
  mf_moves : moves_made st' = moves_made st;
  mf_knowledge : knowledge st' = knowledge st;
  mf_len : length (heap st') = length (heap st);
  mf_heap : ∀ r, r ≠ new → heap st' !! r = heap st !! r;
  mf_safes : safes st ⊆ safes st'
}.

(** A 3x3 solver that was told [add_knowledge((0,0), 2)] and is inside
    [add_knowledge((1,1), 2)], just before the sweep of lines 238-239: it
    stores [{(0,1),(1,0),(1,1)} = 2] and knows [(1,1)] safe. *)
Definition stuck_corner : state :=
  let st := add_knowledge_exec (0, 0) 2 (init 3 3) in
  let o := elements (_get_surrounding_cells st (1, 1)) in
  add_knowledge_mark o o (1, 1) 2 st.

(** One run of the two queries: [cells] is visited in the order of
    [elements], and [random.choice] returns the element at position
    [pick] modulo the length. *)
Definition choice_at (pick : nat) (seq : list Cell) : option Cell :=
  seq !! (pick mod length seq)%nat.

Definition make_safe_move_exec (pick : nat) (self : state) : option Cell :=
  let save := save_moves (elements (_get_all_cells self)) self in
  if decide (length save = 0%nat) then None else choice_at pick save.

Definition make_random_move_exec (pick : nat) (self : state) : option Cell :=
  if decide (make_safe_move_exec pick self = None) then
    let potential := potential_moves (elements (_get_all_cells self)) self in
    if decide (length potential = 0%nat) then None else choice_at pick potential
  else None.

(** ** Playing on a board *)

(** The cells of the board [g] that hold a mine. *)
Definition mine_set (g : Minesweeper.game) : gset Cell :=
  list_to_set
    (filter (λ p, Minesweeper.is_mine g p = true)
            (i ← range 0 (Minesweeper.height g);
             j ← range 0 (Minesweeper.width g); [(i, j)])).

(** A sentence is true of the mine set [M]: exactly [count] of its cells
    are in [M]. *)
Definition truthful (M : gset Cell) (s : Sentence) : Prop :=
  count s = len (cells s ∩ M).

(** Everything the solver believes is true of [M]. *)
Record sound (M : gset Cell) (st : state) : Prop := mk_sound {
  sound_safes : ∀ c, c ∈ safes st → c ∉ M;
  sound_mines : mines st ⊆ M;
  sound_knowledge :
    ∀ r, r ∈ knowledge st → ∃ s, heap st !! r = Some s ∧ truthful M s
}.

(** The invariant of the two loops of [_update_sentence]: the copy at [dc]
    is true of [M] and is not one of the stored sentences. *)
Definition copy_inv (M : gset Cell) (dc : nat) (st : state) : Prop :=
  sound M st ∧ (dc ∉ knowledge st) ∧
  ∃ d, heap st !! dc = Some d ∧ truthful M d.

(** A move the game passes on to [add_knowledge]: a cell of the board that
    is not a mine. *)
Definition playable (g : Minesweeper.game) (cell : Cell) : Prop :=
  Minesweeper.in_bounds g cell ∧ Minesweeper.is_mine g cell = false.

#[global] Instance playable_dec g cell : Decision (playable g cell).
Proof. unfold playable. apply _. Defined.

(** [plays g moves st]: a solver created for the board [g] has been told,
    move after move, the count the board reports for each revealed cell,
    and is now in [st]. *)
Inductive plays (g : Minesweeper.game) : list Cell → state → Prop :=
| plays_start :
    plays g [] (init (Minesweeper.height g) (Minesweeper.width g))
| plays_move moves cell st st' :
    plays g moves st →
    playable g cell →
    add_knowledge cell (Minesweeper.nearby_mines g cell) st st' →
    plays g (moves ++ [cell]) st'.

(** The 1x3 board with its only mine at [(0,2)]. *)
Definition board_1x3 : Minesweeper.game :=
  Minesweeper.mkGame 1 3 [[false; false; true]].

(** The cells that [nearby_mines] counts around [cell]. *)
Definition counted (g : Minesweeper.game) (cell p : Cell) : Prop :=
  p ≠ cell ∧ Minesweeper.in_bounds g p ∧ Minesweeper.board_at g p.1 p.2 = true.

#[global] Instance counted_dec g cell p : Decision (counted g cell p).
Proof. unfold counted. apply _. Defined.

(** The 3x3 block of positions around [cell], on the board or not. *)
Definition block (cell : Cell) : gset Cell :=
  list_to_set (i ← range (cell.1 - 1) (cell.1 + 2);
               j ← range (cell.2 - 1) (cell.2 + 2); [(i, j)]).

(** ** [Minesweeper.__init__] *)

(** Lines 17-23: the field without mines. *)
Definition empty_board (h w : Z) : list (list bool) :=
  replicate (Z.to_nat h) (replicate (Z.to_nat w) false).

(** [self.board[i][j] = True] *)
Definition set_mine (i j : Z) (b : list (list bool)) : list (list bool) :=
  alter (λ row, <[Z.to_nat j := true]> row) (Z.to_nat i) b.

(** Lines 26-31.  [draws] holds the pairs [(i, j)] that the successive
    calls of [random.randrange(height)] and [random.randrange(width)]
    return; [None] means that the loop is still running when they are
    used up. *)
Fixpoint place_mines (draws : list Cell) (target h w : Z)
    (b : list (list bool)) (mines : gset Cell)
  : option (list (list bool) * gset Cell) :=
  if decide (len mines = target) then Some (b, mines)
  else match draws with
       | [] => None
       | (i, j) :: draws =>
           if Minesweeper.board_at (Minesweeper.mkGame h w b) i j
           then place_mines draws target h w b mines
           else place_mines draws target h w (set_mine i j b)
                            ({[ (i, j) ]} ∪ mines)
       end.

(** [Minesweeper(height, width, mines)]: the board and [self.mines]. *)
Definition new_game (h w target : Z) (draws : list Cell)
  : option (Minesweeper.game * gset Cell) :=
  match place_mines draws target h w (empty_board h w) ∅ with
  | Some (b, mines) => Some (Minesweeper.mkGame h w b, mines)
  | None => None
  end.

(** What [random.randrange] can return for a board of size [h] x [w]. *)
Definition in_range (h w : Z) (p : Cell) : Prop :=
  0 ≤ p.1 < h ∧ 0 ≤ p.2 < w.

(** The board has [h] rows of [w] fields. *)
Definition shaped (h w : Z) (b : list (list bool)) : Prop :=
  length b = Z.to_nat h ∧ Forall (λ row, length row = Z.to_nat w) b.

(** * Properties of [Sentence] *)

Section sentence_facts.
Implicit Types (s : Sentence) (c : Cell) (X : gset Cell).

Lemma len_nonneg X : 0 ≤ len X.
Proof. unfold len. lia. Qed.

Lemma len_empty : len ∅ = 0.
Proof. unfold len. by rewrite size_empty. Qed.

Lemma len_zero_empty X : len X = 0 → X = ∅.
Proof.
  unfold len. intros H. apply leibniz_equiv, size_empty_inv. lia.
Qed.

Lemma len_remove X c : c ∈ X → len (X ∖ {[c]}) = len X - 1.
Proof.
  intros Hc. unfold len.
  rewrite size_difference; [|set_solver].
  rewrite size_singleton.
  assert (size X ≠ 0%nat) by (intros ?%size_empty_inv; set_solver).
  lia.
Qed.

Lemma len_pos_elem X c : c ∈ X → 0 < len X.
Proof.
  intros Hc. pose proof (len_nonneg X).
  destruct (decide (len X = 0)) as [E%len_zero_empty|]; [set_solver|lia].
Qed.

Lemma mark_mine_hit s c :
  c ∈ cells s → count s > 0 →
  Sentence.mark_mine c s = mkSentence (cells s ∖ {[c]}) (count s - 1).
Proof. intros. unfold Sentence.mark_mine. by rewrite decide_True. Qed.

Lemma mark_mine_miss s c :
  ¬ (c ∈ cells s ∧ count s > 0) → Sentence.mark_mine c s = s.
Proof. intros. unfold Sentence.mark_mine. by rewrite decide_False. Qed.

Lemma mark_safe_hit s c :
  c ∈ cells s → count s > 0 →
  Sentence.mark_safe c s = mkSentence (cells s ∖ {[c]}) (count s).
Proof. intros. unfold Sentence.mark_safe. by rewrite decide_True. Qed.

Lemma mark_safe_miss s c :
  ¬ (c ∈ cells s ∧ count s > 0) → Sentence.mark_safe c s = s.
Proof. intros. unfold Sentence.mark_safe. by rewrite decide_False. Qed.

End sentence_facts.

(** ** C3: the bound [0 <= count <= |cells|] under [mark_mine] and
    [mark_safe] *)

(** C3, as stated, fails: the sentence [{(0,0)} = 1] satisfies the bound,
    and after [mark_safe((0,0))] it is [{} = 1]. *)
Lemma C3_mark_safe_breaks_bound :
  Sentence.well_formed (mkSentence {[ (0, 0) ]} 1) ∧
  ¬ Sentence.well_formed (Sentence.mark_safe (0, 0) (mkSentence {[ (0, 0) ]} 1)).
Proof.
  split.
  - unfold Sentence.well_formed. simpl. vm_compute. split; discriminate.
  - unfold Sentence.well_formed. vm_compute. intros [_ H]. by apply H.
Qed.

(** C3, amended: for every sentence with [0 <= count <= |cells|] and every
    cell [c], the bound holds after [mark_mine(c)]; it holds after
    [mark_safe(c)] exactly when [c] is not in [cells] or
    [count < |cells|]. *)
Theorem C3_mark_preserves_bound (s : Sentence) (c : Cell) :
  Sentence.well_formed s →
  Sentence.well_formed (Sentence.mark_mine c s) ∧
  (Sentence.well_formed (Sentence.mark_safe c s)
   ↔ c ∉ cells s ∨ count s < len (cells s)).
Proof.
  unfold Sentence.well_formed. intros [Hlo Hhi]. split.
  - unfold Sentence.mark_mine. case_decide as Hc; simpl; [|done].
    destruct Hc as [Hc Hpos]. rewrite len_remove by done. lia.
  - unfold Sentence.mark_safe. case_decide as Hc; simpl.
    + destruct Hc as [Hc Hpos]. rewrite len_remove by done.
      split; [intros [_ H]; right; lia | intros [H|H]; [done|lia]].
    + split; [intros _|done].
      destruct (decide (c ∈ cells s)) as [Hin|]; [right|by left].
      pose proof (len_pos_elem _ _ Hin).
      destruct (decide (count s > 0)); [tauto|lia].
Qed.

Lemma C3_mark_preserves_bound_witness :
  Sentence.well_formed (mkSentence {[ (0, 0); (0, 1) ]} 1) ∧
  Sentence.well_formed (Sentence.mark_mine (0, 0) (mkSentence {[ (0, 0); (0, 1) ]} 1)) ∧
  Sentence.well_formed (Sentence.mark_safe (0, 0) (mkSentence {[ (0, 0); (0, 1) ]} 1)).
Proof.
  assert (Hwf : Sentence.well_formed (mkSentence {[ (0, 0); (0, 1) ]} 1)).
  { unfold Sentence.well_formed. vm_compute. split; discriminate. }
  split; [exact Hwf|].
  destruct (C3_mark_preserves_bound (mkSentence {[ (0, 0); (0, 1) ]} 1) (0, 0) Hwf)
    as [Hm Hs].
  split; [exact Hm|]. apply Hs. right. vm_compute. reflexivity.
Defined.

(** ** C5: [Sentence.mark_safe] *)

(** C5, as stated, fails: in the sentence [{(0,0)} = 0] the cell [(0,0)] is
    a member, and [mark_safe((0,0))] does not remove it. *)
Lemma C5_mark_safe_keeps_cell_at_count_zero :
  (0, 0) ∈ cells (mkSentence {[ (0, 0) ]} 0) ∧
  (0, 0) ∈ cells (Sentence.mark_safe (0, 0) (mkSentence {[ (0, 0) ]} 0)).
Proof. split; vm_compute; set_solver. Qed.

(** C5, amended: if [c] is in [s.cells] and [s.count > 0], [mark_safe(c)]
    removes [c] from [s.cells] and leaves [s.count] unchanged; in every
    other case ([c] not in [s.cells], or [s.count <= 0]) it changes
    nothing. *)
Theorem C5_mark_safe_effect (s : Sentence) (c : Cell) :
  (c ∈ cells s ∧ count s > 0 →
     cells (Sentence.mark_safe c s) = cells s ∖ {[c]} ∧
     (c ∉ cells (Sentence.mark_safe c s)) ∧
     count (Sentence.mark_safe c s) = count s) ∧
  (c ∉ cells s ∨ count s ≤ 0 → Sentence.mark_safe c s = s).
Proof.
  split.
  - intros [Hc Hpos]. rewrite mark_safe_hit by done. simpl.
    split; [done|]. split; [set_solver|done].
  - intros H. apply mark_safe_miss. intros [??]. destruct H; [done|lia].
Qed.

Lemma C5_mark_safe_effect_witness :
  ((0, 0) ∈ cells (mkSentence {[ (0, 0); (0, 1) ]} 1)
   ∧ count (mkSentence {[ (0, 0); (0, 1) ]} 1) > 0) ∧
  cells (Sentence.mark_safe (0, 0) (mkSentence {[ (0, 0); (0, 1) ]} 1))
  = cells (mkSentence {[ (0, 0); (0, 1) ]} 1) ∖ {[ (0, 0) ]} ∧
  ((5, 5) ∉ cells (mkSentence {[ (0, 0); (0, 1) ]} 1)) ∧
  Sentence.mark_safe (5, 5) (mkSentence {[ (0, 0); (0, 1) ]} 1)
  = mkSentence {[ (0, 0); (0, 1) ]} 1.
Proof.
  assert (H1 : (0, 0) ∈ cells (mkSentence {[ (0, 0); (0, 1) ]} 1)
               ∧ count (mkSentence {[ (0, 0); (0, 1) ]} 1) > 0).
  { simpl. split; [set_solver|reflexivity]. }
  assert (H2 : (5, 5) ∉ cells (mkSentence {[ (0, 0); (0, 1) ]} 1)).
  { simpl. set_solver. }
  destruct (C5_mark_safe_effect (mkSentence {[ (0, 0); (0, 1) ]} 1) (0, 0))
    as [Ha _].
  destruct (C5_mark_safe_effect (mkSentence {[ (0, 0); (0, 1) ]} 1) (5, 5))
    as [_ Hb].
  split; [exact H1|]. split; [exact (proj1 (Ha H1))|].
  split; [exact H2|]. apply Hb. left. exact H2.
Defined.

(** ** C7: [known_safes] and [known_mines] at [count == 0] *)

(** C7, as stated, fails for the empty cell set: [Sentence(set(), 0)] has
    [count == len(cells)], so [known_mines()] returns an (empty) collection
    and not [None]. *)
Lemma C7_known_mines_of_empty_is_not_none :
  Sentence.known_mines (Sentence.init ∅ 0) = Some ∅ ∧
  Sentence.known_mines (Sentence.init ∅ 0) ≠ None.
Proof. split; [vm_compute; reflexivity | vm_compute; discriminate]. Qed.

(** C7, amended: for every sentence constructed with [count == 0],
    [known_safes()] returns its full cell set; [known_mines()] returns
    [None] when the cell set is non-empty and an empty collection when the
    cell set is empty.  For every sentence, [known_mines()] yields a
    non-empty result only when [count == |cells| > 0]. *)
Theorem C7_zero_count_closure (cs : gset Cell) (s : Sentence) (X : gset Cell) :
  Sentence.known_safes (Sentence.init cs 0) = Some cs ∧
  Sentence.known_mines (Sentence.init cs 0)
  = (if decide (cs = ∅) then Some ∅ else None) ∧
  (Sentence.known_mines s = Some X → X ≠ ∅ →
   X = cells s ∧ count s = len (cells s) ∧ len (cells s) > 0).
Proof.
  split; [done|]. split.
  - unfold Sentence.known_mines, Sentence.init. simpl.
    case_decide as H0; case_decide as He; try done.
    + subst. done.
    + symmetry in H0. by apply len_zero_empty in H0.
    + subst. by rewrite len_empty in H0.
  - unfold Sentence.known_mines. case_decide as Hc; [|done].
    intros [= <-] Hne. split; [done|]. split; [done|].
    pose proof (len_nonneg (cells s)).
    destruct (decide (len (cells s) = 0)) as [E%len_zero_empty|]; [done|lia].
Qed.

Lemma C7_zero_count_closure_witness :
  Sentence.known_mines (mkSentence {[ (0, 0) ]} 1) = Some {[ (0, 0) ]} ∧
  ({[ (0, 0) ]} : gset Cell) ≠ ∅ ∧
  count (mkSentence {[ (0, 0) ]} 1) = len (cells (mkSentence {[ (0, 0) ]} 1)).
Proof.
  assert (H1 : Sentence.known_mines (mkSentence {[ (0, 0) ]} 1) = Some {[ (0, 0) ]}).
  { vm_compute. reflexivity. }
  assert (H2 : ({[ (0, 0) ]} : gset Cell) ≠ ∅).
  { apply (bool_decide_unpack _). vm_compute. reflexivity. }
  split; [exact H1|]. split; [exact H2|].
  exact (proj1 (proj2 (proj2 (proj2 (C7_zero_count_closure
           ∅ (mkSentence {[ (0, 0) ]} 1) {[ (0, 0) ]})) H1 H2))).
Defined.

(** * The heap: what a loop over the copy can touch *)

Section frames.
Implicit Types (st : state) (dc r : nat) (o : list Cell).

Lemma step_frame_refl dc st : step_frame dc st st.
Proof. by constructor. Qed.

Lemma step_frame_trans dc st1 st2 st3 :
  step_frame dc st1 st2 → step_frame dc st2 st3 → step_frame dc st1 st3.
Proof.
  intros [] []. constructor; try congruence; try (by etrans).
  intros r Hr. rewrite sf_heap1 by done. auto.
Qed.

Lemma step_frame_mutate dc f st : step_frame dc st (mutate dc f st).
Proof.
  constructor; try done; simpl.
  - apply length_alter.
  - intros r Hr. by apply list_lookup_alter_ne.
Qed.

Lemma step_frame_with_mines dc f st :
  (∀ X, X ⊆ f X) → step_frame dc st (with_mines f st).
Proof. intros Hf. constructor; try done; apply Hf. Qed.

Lemma step_frame_with_safes dc f st :
  (∀ X, X ⊆ f X) → step_frame dc st (with_safes f st).
Proof. intros Hf. constructor; try done; apply Hf. Qed.

Lemma add_subseteq (x : Cell) (X : gset Cell) : X ⊆ add x X.
Proof. unfold add. set_solver. Qed.

Lemma step_frame_foldl {A} dc (f : state → A → state) (l : list A) st :
  (∀ st x, step_frame dc st (f st x)) → step_frame dc st (foldl f st l).
Proof.
  intros Hf. revert st. induction l as [|x l IH]; intros st; simpl.
  - apply step_frame_refl.
  - eapply step_frame_trans; [apply Hf|apply IH].
Qed.

(** Closed forms of the three inner loops: the order of the visit does
    not matter. *)
Lemma collect_mines_spec o st :
  collect_mines o st
  = (with_mines (λ m, list_to_set o ∪ m) st, list_to_set o).
Proof.
  unfold collect_mines.
  enough (H : ∀ T st,
    foldl (λ '(st, temp_set) cell,
             (with_mines (add cell) st, add cell temp_set)) (st, T) o
    = (with_mines (λ m, list_to_set o ∪ m) st, list_to_set o ∪ T)).
  { rewrite H. f_equal. set_solver. }
  induction o as [|x o IH]; intros T st'; simpl.
  - destruct st'. unfold with_mines. simpl. f_equal; [f_equal|]; set_solver.
  - rewrite IH. destruct st'. unfold with_mines, add. simpl.
    f_equal; [f_equal|]; set_solver.
Qed.

Lemma collect_safes_spec o st :
  collect_safes o st = with_safes (λ m, list_to_set o ∪ m) st.
Proof.
  unfold collect_safes. revert st.
  induction o as [|x o IH]; intros st; simpl.
  - destruct st. unfold with_safes. simpl. f_equal. set_solver.
  - rewrite IH. destruct st. unfold with_safes, add. simpl.
    f_equal. set_solver.
Qed.

Lemma drain_spec dc o st :
  drain dc o st
  = mutate dc (λ s, mkSentence (cells s ∖ list_to_set o)
                               (count s - Z.of_nat (length o))) st.
Proof.
  unfold drain. revert st.
  induction o as [|x o IH]; intros st; simpl.
  - destruct st. unfold mutate, with_heap. simpl. f_equal.
    symmetry. apply list_alter_id. intros [cs n]. simpl.
    f_equal; [set_solver|lia].
  - rewrite IH. destruct st. unfold mutate, with_heap. simpl. f_equal.
    rewrite !list_alter_alter_eq. apply list_alter_ext; [|done].
    intros [cs n] _. unfold decr_count, remove_cell. simpl.
    f_equal; [set_solver|lia].
Qed.

Lemma safes_step_frame dc st safe : step_frame dc st (safes_step dc st safe).
Proof.
  unfold safes_step.
  set (st1 := if decide (safe ∈ cells (deref st dc))
              then mutate dc (remove_cell safe) st else st).
  assert (H1 : step_frame dc st st1).
  { subst st1. case_decide; [apply step_frame_mutate|apply step_frame_refl]. }
  case_decide; [|done].
  rewrite collect_mines_spec, drain_spec.
  eapply step_frame_trans; [exact H1|].
  eapply step_frame_trans; [|apply step_frame_mutate].
  apply step_frame_with_mines. set_solver.
Qed.

Lemma mines_step_frame dc st mine : step_frame dc st (mines_step dc st mine).
Proof.
  unfold mines_step. case_decide; [|apply step_frame_refl].
  set (st1 := mutate dc decr_count (mutate dc (remove_cell mine) st)).
  assert (H1 : step_frame dc st st1).
  { eapply step_frame_trans; apply step_frame_mutate. }
  case_decide; [|done].
  rewrite collect_safes_spec.
  eapply step_frame_trans; [exact H1|].
  apply step_frame_with_safes. set_solver.
Qed.

Lemma grows_refl st : grows st st.
Proof. by constructor. Qed.

Lemma grows_trans st1 st2 st3 : grows st1 st2 → grows st2 st3 → grows st1 st3.
Proof.
  intros [] []. constructor; try congruence; try (by etrans). auto.
Qed.

Lemma grows_alloc s st : grows st (alloc s st).2.
Proof.
  constructor; try done. simpl. intros r s' Hr.
  rewrite lookup_app_l; [done|]. by eapply lookup_lt_Some.
Qed.

(** A loop that only touches the object just created leaves the old
    ones alone. *)
Lemma alloc_step_frame_grows s st st' :
  step_frame (length (heap st)) (alloc s st).2 st' → grows st st'.
Proof.
  intros []. destruct (grows_alloc s st). constructor; try congruence;
    try (by etrans).
  intros r s' Hr. rewrite sf_heap0; [by apply gr_heap0|].
  apply lookup_lt_Some in Hr. lia.
Qed.

Lemma update_sentence_run_grows o1 o2 sentence st :
  grows st (update_sentence_run o1 o2 sentence st).
Proof.
  unfold update_sentence_run, update_after_safes, update_copy.
  simpl. case_decide; [|apply grows_alloc].
  apply (alloc_step_frame_grows (deref st sentence)). simpl.
  eapply step_frame_trans; [|apply step_frame_foldl, mines_step_frame].
  apply step_frame_foldl, safes_step_frame.
Qed.

Lemma update_sentence_grows sentence st st' :
  _update_sentence sentence st st' → grows st st'.
Proof. intros (o1 & o2 & _ & _ & ->). apply update_sentence_run_grows. Qed.

Lemma propagate_grows ks st st' : propagate ks st st' → grows st st'.
Proof.
  induction 1 as [|r rest st st1 st2 Hu Hp IH]; [apply grows_refl|].
  eapply grows_trans; [by eapply update_sentence_grows|done].
Qed.

Lemma valid_refs_lookup st r :
  valid_refs st → r ∈ knowledge st → heap st !! r = Some (deref st r).
Proof.
  intros Hv Hr. unfold valid_refs in Hv. rewrite Forall_forall in Hv.
  apply Hv in Hr. apply lookup_lt_is_Some in Hr as [s Hs].
  unfold deref. by rewrite (list_lookup_total_correct _ _ _ Hs).
Qed.

Lemma grows_deref st st' r :
  grows st st' → (r < length (heap st))%nat → deref st' r = deref st r.
Proof.
  intros Hg Hr. apply lookup_lt_is_Some in Hr as [s Hs].
  unfold deref. rewrite (list_lookup_total_correct _ _ _ Hs).
  apply list_lookup_total_correct. by apply Hg.
Qed.

Lemma grows_valid_refs st st' : grows st st' → valid_refs st → valid_refs st'.
Proof.
  intros Hg. unfold valid_refs. rewrite (gr_knowledge _ _ Hg).
  intros Hv. eapply Forall_impl; [exact Hv|]. simpl. intros r Hr.
  apply lookup_lt_is_Some in Hr as [s Hs].
  apply Hg in Hs. by eapply lookup_lt_Some.
Qed.

End frames.

(** * Runs exist: every call returns *)

Section runs.
Implicit Types (st : state) (X : gset Cell).

Lemma enumerates_elements X : enumerates (elements X) X.
Proof.
  split; [apply NoDup_elements|apply list_to_set_elements_L].
Qed.

Lemma enumerates_elem_of o X x : enumerates o X → x ∈ o ↔ x ∈ X.
Proof. intros [_ <-]. by rewrite elem_of_list_to_set. Qed.

Lemma update_sentence_exec_run sentence st :
  _update_sentence sentence st (update_sentence_exec sentence st).
Proof.
  eexists _, _. split; [apply enumerates_elements|].
  split; [apply enumerates_elements|done].
Qed.

Lemma propagate_exec_run ks st : propagate ks st (propagate_exec ks st).
Proof.
  revert st. induction ks as [|r ks IH]; intros st; [constructor|].
  econstructor; [apply update_sentence_exec_run|apply IH].
Qed.

Lemma add_knowledge_exec_run cell n st :
  add_knowledge cell n st (add_knowledge_exec cell n st).
Proof.
  eexists _, _. split; [apply enumerates_elements|].
  split; [apply enumerates_elements|apply propagate_exec_run].
Qed.

End runs.

(** * What lines 216-235 of [add_knowledge] change *)

Section marking.
Implicit Types (st : state) (new r : nat) (o : list Cell).

Lemma mark_frame_refl new st : mark_frame new st st.
Proof. by constructor. Qed.

Lemma mark_frame_trans new st1 st2 st3 :
  mark_frame new st1 st2 → mark_frame new st2 st3 → mark_frame new st1 st3.
Proof.
  intros [] []. constructor; try congruence; try (by etrans).
  intros r Hr. rewrite mf_heap1 by done. auto.
Qed.

Lemma mark_frame_foldl {A} new (f : state → A → state) (l : list A) st :
  (∀ st x, mark_frame new st (f st x)) → mark_frame new st (foldl f st l).
Proof.
  intros Hf. revert st. induction l as [|x l IH]; intros st; simpl.
  - apply mark_frame_refl.
  - eapply mark_frame_trans; [apply Hf|apply IH].
Qed.

Lemma safe_step_frame new st c : mark_frame new st (safe_step new st c).
Proof.
  unfold safe_step. case_decide; constructor; simpl; try done;
    try apply length_alter; try apply add_subseteq;
    by intros r Hr; apply list_lookup_alter_ne.
Qed.

Lemma mine_step_frame new st c : mark_frame new st (mine_step new st c).
Proof.
  unfold mine_step. constructor; simpl; try done;
    try apply length_alter; by intros r Hr; apply list_lookup_alter_ne.
Qed.

Lemma add_knowledge_append_mark o4 o5 cell n st :
  mark_frame (length (heap st))
    (add_knowledge_append cell n st).2
    (add_knowledge_mark o4 o5 cell n st).
Proof.
  unfold add_knowledge_mark, add_knowledge_append. simpl.
  destruct (decide (n = 0)); destruct (decide (n = len _)).
  - eapply mark_frame_trans; [|apply mark_frame_foldl, mine_step_frame].
    apply mark_frame_foldl, safe_step_frame.
  - apply mark_frame_foldl, safe_step_frame.
  - apply mark_frame_foldl, mine_step_frame.
  - apply mark_frame_refl.
Qed.

(** The fields after lines 216-235. *)
Lemma add_knowledge_mark_fields o4 o5 cell n st :
  let st1 := add_knowledge_mark o4 o5 cell n st in
  height st1 = height st ∧ width st1 = width st ∧
  moves_made st1 = add cell (moves_made st) ∧
  knowledge st1 = knowledge st ++ [length (heap st)] ∧
  length (heap st1) = S (length (heap st)) ∧
  (∀ r s, heap st !! r = Some s → heap st1 !! r = Some s) ∧
  add cell (safes st) ⊆ safes st1.
Proof.
  destruct (add_knowledge_append_mark o4 o5 cell n st) as [H1 H2 H3 H4 H5 H6 H7].
  simpl in *. repeat split; try done.
  - rewrite H5, length_app. simpl. lia.
  - intros r s Hr. rewrite H6.
    + rewrite lookup_app_l; [done|]. by eapply lookup_lt_Some.
    + apply lookup_lt_Some in Hr. lia.
Qed.

Lemma add_knowledge_mark_valid_refs o4 o5 cell n st :
  valid_refs st → valid_refs (add_knowledge_mark o4 o5 cell n st).
Proof.
  intros Hv.
  destruct (add_knowledge_mark_fields o4 o5 cell n st)
    as (_ & _ & _ & Hk & Hl & _).
  unfold valid_refs. rewrite Hk, Hl. apply Forall_app. split.
  - eapply Forall_impl; [exact Hv|]. simpl. lia.
  - repeat constructor.
Qed.

Lemma add_knowledge_valid_refs cell n st st' :
  valid_refs st → add_knowledge cell n st st' → valid_refs st'.
Proof.
  intros Hv (o4 & o5 & _ & _ & Hp).
  eapply grows_valid_refs; [eapply propagate_grows, Hp|].
  by apply add_knowledge_mark_valid_refs.
Qed.

Lemma init_valid_refs h w : valid_refs (init h w).
Proof. constructor. Qed.

End marking.

(** ** C10: the propagation pass does not touch the stored sentences *)

(** C10: the sweep of lines 238-239 leaves [knowledge] and every sentence
    it refers to unchanged, in cells and in count; [_update_sentence]
    works on a deep copy and records what it derives in [safes] and
    [mines] only ([moves_made] and the board size are unchanged too). *)
Theorem C10_propagation_keeps_stored_sentences (st st' : state) :
  valid_refs st →
  propagate (knowledge st) st st' →
  knowledge st' = knowledge st ∧
  Forall (λ r, heap st' !! r = heap st !! r ∧
               cells (deref st' r) = cells (deref st r) ∧
               count (deref st' r) = count (deref st r)) (knowledge st) ∧
  moves_made st' = moves_made st ∧
  height st' = height st ∧ width st' = width st.
Proof.
  intros Hv Hp. apply propagate_grows in Hp.
  destruct Hp as [Hh Hw Hm Hk Hheap _ _].
  repeat split; try done.
  apply Forall_forall. intros r Hr.
  pose proof (valid_refs_lookup _ _ Hv Hr) as Hl.
  pose proof (Hheap _ _ Hl) as Hl'.
  assert (deref st' r = deref st r) as ->.
  { unfold deref at 1. by apply list_lookup_total_correct. }
  split; [congruence|done].
Qed.

Lemma C10_propagation_keeps_stored_sentences_witness :
  valid_refs stuck_corner ∧
  propagate (knowledge stuck_corner) stuck_corner
            (propagate_exec (knowledge stuck_corner) stuck_corner) ∧
  knowledge (propagate_exec (knowledge stuck_corner) stuck_corner)
  = knowledge stuck_corner.
Proof.
  assert (Hv : valid_refs stuck_corner).
  { apply add_knowledge_mark_valid_refs.
    eapply add_knowledge_valid_refs;
      [apply init_valid_refs|apply add_knowledge_exec_run]. }
  assert (Hp : propagate (knowledge stuck_corner) stuck_corner
                 (propagate_exec (knowledge stuck_corner) stuck_corner)).
  { apply propagate_exec_run. }
  split; [exact Hv|]. split; [exact Hp|].
  exact (proj1 (C10_propagation_keeps_stored_sentences _ _ Hv Hp)).
Defined.

(** ** C6: [add_knowledge] and invalid input *)

(** C6, as stated, fails: on a fresh 2x2 solver the call
    [add_knowledge((5,5), 0)], whose cell is outside the board, returns
    normally, and so does a second [add_knowledge((0,0), 0)] for a cell
    already played; each records the move and appends a sentence. *)
Lemma C6_invalid_input_is_processed :
  (∃ st', add_knowledge (5, 5) 0 (init 2 2) st') ∧
  (∀ st', add_knowledge (5, 5) 0 (init 2 2) st' →
          (5, 5) ∈ moves_made st' ∧ length (knowledge st') = 1%nat) ∧
  (∀ st1 st2, add_knowledge (0, 0) 0 (init 2 2) st1 →
              (0, 0) ∈ moves_made st1 ∧
              (∃ st', add_knowledge (0, 0) 0 st1 st') ∧
              (add_knowledge (0, 0) 0 st1 st2 →
               length (knowledge st2) = 2%nat)).
Proof.
  assert (Hgen : ∀ cell n st st', add_knowledge cell n st st' →
            cell ∈ moves_made st' ∧
            length (knowledge st') = S (length (knowledge st))).
  { intros cell n st st' (o4 & o5 & _ & _ & Hp).
    apply propagate_grows in Hp. destruct Hp as [_ _ Hm Hk _ _ _].
    destruct (add_knowledge_mark_fields o4 o5 cell n st)
      as (_ & _ & Hm1 & Hk1 & _).
    rewrite Hm, Hk, Hm1, Hk1, length_app. simpl.
    split; [unfold add; set_solver|lia]. }
  split; [eexists; apply add_knowledge_exec_run|].
  split.
  - intros st' H. by apply Hgen in H.
  - intros st1 st2 H1. apply Hgen in H1 as [Hm1 Hk1].
    split; [done|]. split; [eexists; apply add_knowledge_exec_run|].
    intros H2. apply Hgen in H2 as [_ Hk2]. simpl in *. lia.
Qed.

(** C6, amended: [add_knowledge(cell, count)] validates nothing.  For
    every cell, played before or not, on the board or not, and every
    count, the call returns; it adds [cell] to [moves_made] and to
    [safes] and appends exactly one sentence to [knowledge]. *)
Theorem C6_add_knowledge_accepts_every_cell (cell : Cell) (n : Z) (st : state) :
  (∃ st', add_knowledge cell n st st') ∧
  (∀ st', add_knowledge cell n st st' →
          moves_made st' = {[cell]} ∪ moves_made st ∧
          cell ∈ safes st' ∧
          length (knowledge st') = S (length (knowledge st))).
Proof.
  split; [eexists; apply add_knowledge_exec_run|].
  intros st' (o4 & o5 & _ & _ & Hp).
  apply propagate_grows in Hp. destruct Hp as [_ _ Hm Hk _ _ Hs].
  destruct (add_knowledge_mark_fields o4 o5 cell n st)
    as (_ & _ & Hm1 & Hk1 & _ & _ & Hs1).
  rewrite Hm, Hk, Hm1, Hk1, length_app. simpl.
  split; [done|]. split; [|lia].
  apply Hs, Hs1. unfold add. set_solver.
Qed.

(** * The cells of the board and the neighbours of a cell *)

Section geometry.
Implicit Types (st : state) (p cell : Cell).

Lemma elem_of_range a b k : k ∈ range a b ↔ a ≤ k < b.
Proof. unfold range. rewrite elem_of_seqZ. lia. Qed.

Lemma NoDup_range a b : NoDup (range a b).
Proof. apply NoDup_seqZ. Qed.

Lemma elem_of_grid a b c d p :
  p ∈ (i ← range a b; j ← range c d; [(i, j)])
  ↔ (a ≤ p.1 < b) ∧ (c ≤ p.2 < d).
Proof.
  rewrite list_elem_of_bind. split.
  - intros (i & (j & Hp & Hj)%list_elem_of_bind & Hi).
    apply list_elem_of_singleton in Hp as ->. simpl.
    by rewrite elem_of_range in Hi, Hj.
  - intros [Hi Hj]. exists p.1. rewrite elem_of_range. split; [|done].
    apply list_elem_of_bind. exists p.2. rewrite elem_of_range.
    split; [|done]. destruct p. apply list_elem_of_here.
Qed.

Lemma NoDup_grid a b c d :
  NoDup (i ← range a b; j ← range c d; [(i, j)]).
Proof.
  apply NoDup_bind; [| |apply NoDup_range].
  - intros i1 i2 p _ _ (j1 & Hp1 & _)%list_elem_of_bind
           (j2 & Hp2 & _)%list_elem_of_bind.
    apply list_elem_of_singleton in Hp1, Hp2. congruence.
  - intros i _. apply NoDup_bind; [| |apply NoDup_range].
    + intros j1 j2 p _ _ Hp1%list_elem_of_singleton
             Hp2%list_elem_of_singleton. congruence.
    + intros j _. apply NoDup_singleton.
Qed.

Lemma elem_of_get_all_cells st p : p ∈ _get_all_cells st ↔ on_board st p.
Proof.
  unfold _get_all_cells, on_board.
  by rewrite elem_of_list_to_set, elem_of_grid.
Qed.

Lemma elem_of_surrounding st cell p :
  p ∈ _get_surrounding_cells st cell ↔
  (Z.max 0 (cell.1 - 1) ≤ p.1 ≤ Z.min (height st) (cell.1 + 1)) ∧
  (Z.max 0 (cell.2 - 1) ≤ p.2 ≤ Z.min (width st) (cell.2 + 1)) ∧
  p ≠ cell.
Proof.
  unfold _get_surrounding_cells. simpl.
  rewrite elem_of_list_to_set, list_elem_of_bind. split.
  - intros (i & (j & Hp & Hj)%list_elem_of_bind & Hi).
    rewrite elem_of_range in Hi, Hj.
    case_decide; [|by apply elem_of_nil in Hp].
    apply list_elem_of_singleton in Hp as ->. simpl.
    split; [lia|]. split; [lia|done].
  - intros (Hi & Hj & Hne). exists p.1. rewrite elem_of_range.
    split; [|lia]. apply list_elem_of_bind. exists p.2.
    rewrite elem_of_range. split; [|lia].
    destruct p. simpl. rewrite decide_True by done. apply list_elem_of_here.
Qed.

(** Seen from the board, the set is the ring around the cell. *)
Lemma surrounding_on_board st cell p :
  on_board st p →
  p ∈ _get_surrounding_cells st cell ↔ chebyshev p cell ≤ 1 ∧ p ≠ cell.
Proof.
  unfold on_board, chebyshev. rewrite elem_of_surrounding.
  intros Hb. split.
  - intros (? & ? & ?). split; [lia|done].
  - intros [? ?]. split; [lia|]. split; [lia|done].
Qed.

Lemma surrounding_fields st st' cell :
  height st' = height st → width st' = width st →
  _get_surrounding_cells st' cell = _get_surrounding_cells st cell.
Proof. unfold _get_surrounding_cells. by intros -> ->. Qed.

End geometry.

(** ** C2: the cells of the sentence that [add_knowledge] appends *)

(** C2, as stated, fails: after [add_knowledge((0,0), 1)] on a fresh 3x3
    solver, the call [add_knowledge((1,1), 1)] appends a sentence that
    contains the revealed cell [(0,0)]; the code never filters on
    [moves_made]. *)
Lemma C2_revealed_neighbour_is_kept :
  let st := add_knowledge_exec (0, 0) 1 (init 3 3) in
  let '(new_sentence, _, st1) := add_knowledge_append (1, 1) 1 st in
  add_knowledge (0, 0) 1 (init 3 3) st ∧
  (0, 0) ∈ moves_made st ∧
  knowledge st1 = knowledge st ++ [new_sentence] ∧
  (0, 0) ∈ cells (deref st1 new_sentence) ∧
  ((0, 0) ∉ unrevealed_neighbors st (1, 1)) ∧
  cells (deref st1 new_sentence) ≠ unrevealed_neighbors st (1, 1).
Proof.
  set (st := add_knowledge_exec (0, 0) 1 (init 3 3)).
  assert (Hm : (0, 0) ∈ moves_made st).
  { apply (bool_decide_unpack _). vm_compute. reflexivity. }
  assert (Hin : (0, 0) ∈ cells (deref (add_knowledge_append (1, 1) 1 st).2
                                  (add_knowledge_append (1, 1) 1 st).1.1)).
  { apply (bool_decide_unpack _). vm_compute. reflexivity. }
  assert (Hout : (0, 0) ∉ unrevealed_neighbors st (1, 1)).
  { unfold unrevealed_neighbors. rewrite elem_of_filter. tauto. }
  simpl. split; [apply add_knowledge_exec_run|].
  split; [done|]. split; [done|]. split; [exact Hin|]. split; [done|].
  intros Heq. apply Hout. rewrite <- Heq. exact Hin.
Qed.

(** C2, amended: for every call [add_knowledge(cell, count)] the sentence
    appended to [knowledge] is built over [_get_surrounding_cells(cell)]
    with the given count, and the cells of the board in it are exactly the
    cells of the board within Chebyshev distance 1 of [cell], excluding
    [cell] itself, whether revealed or not.  When [cell] is not in the last
    row or the last column ([cell[0] + 1 < height] and
    [cell[1] + 1 < width]) the sentence holds nothing else. *)
Theorem C2_appended_sentence_cells (cell : Cell) (n : Z) (st : state) :
  let '(new_sentence, surr_cells, st1) := add_knowledge_append cell n st in
  knowledge st1 = knowledge st ++ [new_sentence] ∧
  heap st1 !! new_sentence = Some (mkSentence surr_cells n) ∧
  (∀ p, on_board st p →
        p ∈ surr_cells ↔ chebyshev p cell ≤ 1 ∧ p ≠ cell) ∧
  (cell.1 + 1 < height st → cell.2 + 1 < width st →
   ∀ p, p ∈ surr_cells ↔ on_board st p ∧ chebyshev p cell ≤ 1 ∧ p ≠ cell).
Proof.
  unfold add_knowledge_append. simpl.
  split; [done|]. split.
  { rewrite lookup_app_r by done. by rewrite Nat.sub_diag. }
  rewrite (surrounding_fields st) by done.
  split; [apply surrounding_on_board|].
  intros Hr Hc p. rewrite elem_of_surrounding.
  unfold on_board, chebyshev. split.
  - intros (? & ? & ?). split; [lia|]. split; [lia|done].
  - intros (? & ? & ?). split; [lia|]. split; [lia|done].
Qed.

Lemma C2_appended_sentence_cells_witness :
  (1, 1).1 + 1 < height (init 3 3) ∧ (1, 1).2 + 1 < width (init 3 3) ∧
  ((0, 2) ∈ _get_surrounding_cells (init 3 3) (1, 1)
   ↔ on_board (init 3 3) (0, 2) ∧ chebyshev (0, 2) (1, 1) ≤ 1 ∧ (0, 2) ≠ (1, 1)).
Proof.
  assert (H1 : (1, 1).1 + 1 < height (init 3 3)) by (simpl; lia).
  assert (H2 : (1, 1).2 + 1 < width (init 3 3)) by (simpl; lia).
  split; [exact H1|]. split; [exact H2|].
  exact (proj2 (proj2 (proj2 (C2_appended_sentence_cells (1, 1) 1 (init 3 3))))
           H1 H2 (0, 2)).
Defined.

(** * Move selection *)

Section moves.
Implicit Types (st : state) (x : Cell) (o : list Cell) (r : option Cell).

Lemma elem_of_save_moves o st x :
  enumerates o (_get_all_cells st) →
  x ∈ save_moves o st ↔ on_board st x ∧ x ∈ safes st ∧ x ∉ moves_made st.
Proof.
  intros Ho. unfold save_moves.
  rewrite list_elem_of_filter, (enumerates_elem_of _ _ _ Ho).
  rewrite elem_of_get_all_cells. tauto.
Qed.

Lemma elem_of_potential_moves o st x :
  enumerates o (_get_all_cells st) →
  x ∈ potential_moves o st ↔ on_board st x ∧ (x ∉ moves_made st) ∧ x ∉ mines st.
Proof.
  intros Ho. unfold potential_moves.
  rewrite list_elem_of_filter, (enumerates_elem_of _ _ _ Ho).
  rewrite elem_of_get_all_cells. tauto.
Qed.

Lemma length_zero_no_elem {A} (l : list A) :
  length l = 0%nat ↔ ∀ a, a ∉ l.
Proof.
  destruct l as [|a l]; simpl.
  - split; [intros _ b; apply not_elem_of_nil|done].
  - split; [done|]. intros H. destruct (H a). apply list_elem_of_here.
Qed.

Lemma choice_at_elem pick (l : list Cell) :
  length l ≠ 0%nat → ∃ x, choice_at pick l = Some x ∧ random_choice l x.
Proof.
  intros Hl. unfold choice_at, random_choice.
  destruct (lookup_lt_is_Some_2 l (pick mod length l)) as [x Hx].
  { by apply Nat.mod_upper_bound. }
  exists x. split; [done|]. by eapply list_elem_of_lookup_2.
Qed.

(** What a call of [make_safe_move] can return. *)
Lemma make_safe_move_inv st r st' :
  make_safe_move st r st' →
  st' = st ∧
  match r with
  | Some x => on_board st x ∧ x ∈ safes st ∧ x ∉ moves_made st
  | None => ∀ x, ¬ (on_board st x ∧ x ∈ safes st ∧ x ∉ moves_made st)
  end.
Proof.
  intros (o & Ho & -> & Hr). split; [done|].
  case_decide as Hl.
  - subst r. intros x Hx. rewrite length_zero_no_elem in Hl.
    apply (Hl x). by apply elem_of_save_moves.
  - destruct Hr as (x & Hx & ->). by apply elem_of_save_moves in Hx.
Qed.

Lemma make_safe_move_exec_run pick st :
  make_safe_move st (make_safe_move_exec pick st) st.
Proof.
  exists (elements (_get_all_cells st)).
  split; [apply enumerates_elements|]. split; [done|].
  unfold make_safe_move_exec. simpl. case_decide as Hl; [done|].
  destruct (choice_at_elem pick _ Hl) as (x & -> & Hx). eauto.
Qed.

Lemma make_random_move_inv st r st' :
  make_random_move st r st' →
  st' = st ∧
  ((∀ x, ¬ (on_board st x ∧ x ∈ safes st ∧ x ∉ moves_made st)) →
   match r with
   | Some x => on_board st x ∧ (x ∉ moves_made st) ∧ x ∉ mines st
   | None => ∀ x, ¬ (on_board st x ∧ (x ∉ moves_made st) ∧ x ∉ mines st)
   end).
Proof.
  intros (r0 & st0 & [-> Hr0]%make_safe_move_inv & Hrest).
  case_decide as Hnone.
  - destruct Hrest as (o & Ho & -> & Hr). split; [done|]. intros _.
    case_decide as Hl.
    + subst r. intros x Hx. rewrite length_zero_no_elem in Hl.
      apply (Hl x). by apply elem_of_potential_moves.
    + destruct Hr as (x & Hx & ->). by apply elem_of_potential_moves in Hx.
  - destruct Hrest as [-> ->]. split; [done|]. intros Hno.
    destruct r0 as [x|]; [|done]. by destruct (Hno x).
Qed.

Lemma make_random_move_exec_run pick st :
  make_random_move st (make_random_move_exec pick st) st.
Proof.
  exists (make_safe_move_exec pick st), st.
  split; [apply make_safe_move_exec_run|].
  unfold make_random_move_exec. case_decide as Hs; [|done].
  exists (elements (_get_all_cells st)).
  split; [apply enumerates_elements|]. split; [done|].
  simpl. case_decide as Hl; [done|].
  destruct (choice_at_elem pick _ Hl) as (x & -> & Hx). eauto.
Qed.

End moves.

(** A 2x2 solver that has played [(0,0)], knows [(0,1)] safe and [(1,1)]
    a mine. *)
Example make_safe_move_example :
  make_safe_move_exec 0 (mkAI [] 2 2 {[ (0, 0) ]} {[ (1, 1) ]}
                              {[ (0, 0); (0, 1) ]} []) = Some (0, 1).
Proof. vm_compute. reflexivity. Qed.

(** ** C9: [make_safe_move] *)

(** C9, as stated, fails: a 1x1 solver that is told
    [add_knowledge((0,0), 0)] ends with [(0,1)] in [safes] and not in
    [moves_made] (the neighbour set of [(0,0)] reaches one column past the
    board), and [make_safe_move()] returns [None]: it only ever looks at
    the cells of [_get_all_cells()]. *)
Lemma C9_safe_cell_off_the_board_is_not_returned :
  let st := add_knowledge_exec (0, 0) 0 (init 1 1) in
  add_knowledge (0, 0) 0 (init 1 1) st ∧
  ((0, 1) ∈ safes st ∧ (0, 1) ∉ moves_made st) ∧
  (∃ r, make_safe_move st r st) ∧
  (∀ r st', make_safe_move st r st' → r = None).
Proof.
  set (st := add_knowledge_exec (0, 0) 0 (init 1 1)). simpl.
  assert (Hh : height st = 1) by (vm_compute; reflexivity).
  assert (Hw : width st = 1) by (vm_compute; reflexivity).
  assert (Hm : (0, 0) ∈ moves_made st).
  { apply (bool_decide_unpack _). vm_compute. reflexivity. }
  split; [apply add_knowledge_exec_run|]. split.
  { split; apply (bool_decide_unpack _); vm_compute; reflexivity. }
  split; [exists (make_safe_move_exec 0 st); apply make_safe_move_exec_run|].
  intros r st' [_ Hr]%make_safe_move_inv.
  destruct r as [[i j]|]; [|done].
  destruct Hr as ([Hi Hj] & _ & Hnot). simpl in Hi, Hj.
  rewrite Hh in Hi. rewrite Hw in Hj.
  assert (i = 0) as -> by lia. assert (j = 0) as -> by lia. done.
Qed.

(** C9, amended: [make_safe_move()] returns; whatever it returns, the
    solver is left exactly as it was ([moves_made], [safes], [mines],
    [knowledge] and the sentences unchanged); a returned cell is a cell of
    the board (row in [[0, height)], column in [[0, width)]) that is in
    [safes] and not in [moves_made]; a cell is returned whenever the board
    has such a cell, and [None] when it has none. *)
Theorem C9_make_safe_move (st : state) :
  (∃ r, make_safe_move st r st) ∧
  (∀ r st', make_safe_move st r st' →
     st' = st ∧
     (∀ x, r = Some x → on_board st x ∧ x ∈ safes st ∧ x ∉ moves_made st) ∧
     ((∃ x, on_board st x ∧ x ∈ safes st ∧ x ∉ moves_made st) →
      ∃ x, r = Some x) ∧
     ((¬ ∃ x, on_board st x ∧ x ∈ safes st ∧ x ∉ moves_made st) →
      r = None)).
Proof.
  split; [exists (make_safe_move_exec 0 st); apply make_safe_move_exec_run|].
  intros r st' [-> Hr]%make_safe_move_inv. split; [done|].
  destruct r as [x|].
  - split; [by intros ? [= <-]|]. split; [eauto|].
    intros Hno. destruct Hno. eauto.
  - split; [done|]. split; [|done].
    intros (x & Hx). by destruct (Hr x).
Qed.

Lemma C9_make_safe_move_witness :
  (∃ x, on_board (mkAI [] 2 2 {[ (0, 0) ]} ∅ {[ (0, 0); (0, 1) ]} []) x
        ∧ x ∈ safes (mkAI [] 2 2 {[ (0, 0) ]} ∅ {[ (0, 0); (0, 1) ]} [])
        ∧ x ∉ moves_made (mkAI [] 2 2 {[ (0, 0) ]} ∅ {[ (0, 0); (0, 1) ]} [])) ∧
  (∃ x, make_safe_move_exec 0 (mkAI [] 2 2 {[ (0, 0) ]} ∅ {[ (0, 0); (0, 1) ]} [])
        = Some x).
Proof.
  set (st := mkAI [] 2 2 {[ (0, 0) ]} ∅ {[ (0, 0); (0, 1) ]} []).
  assert (Hex : ∃ x, on_board st x ∧ x ∈ safes st ∧ x ∉ moves_made st).
  { exists (0, 1). split; [unfold on_board; simpl; lia|].
    split; apply (bool_decide_unpack _); vm_compute; reflexivity. }
  split; [exact Hex|].
  exact (proj1 (proj2 (proj2 (proj2 (C9_make_safe_move st)
           (make_safe_move_exec 0 st) st (make_safe_move_exec_run 0 st)))) Hex).
Defined.

(** ** C8: [make_random_move] *)

(** C8: when [make_safe_move()] yields no move, [make_random_move()]
    returns, changes nothing, and its result is a cell of the board that is
    neither in [moves_made] nor in [mines] whenever the board has such a
    cell; it is [None] exactly when every cell of the board is in
    [moves_made] or in [mines]. *)
Theorem C8_make_random_move (st : state) :
  make_safe_move st None st →
  (∃ r, make_random_move st r st) ∧
  (∀ r st', make_random_move st r st' →
     st' = st ∧
     (∀ x, r = Some x → on_board st x ∧ (x ∉ moves_made st) ∧ x ∉ mines st) ∧
     ((∃ x, on_board st x ∧ (x ∉ moves_made st) ∧ x ∉ mines st) →
      ∃ x, r = Some x) ∧
     (r = None ↔ ∀ x, on_board st x → x ∈ moves_made st ∨ x ∈ mines st)).
Proof.
  intros [_ Hpre]%make_safe_move_inv.
  split; [exists (make_random_move_exec 0 st); apply make_random_move_exec_run|].
  intros r st' [-> Hr]%make_random_move_inv. specialize (Hr Hpre).
  split; [done|]. destruct r as [x|].
  - split; [by intros ? [= <-]|]. split; [eauto|].
    split; [done|]. intros Hall. destruct Hr as (Hb & Hm & Hn).
    destruct (Hall x Hb); done.
  - split; [done|]. split; [intros (x & Hx); by destruct (Hr x)|].
    split; [|done]. intros _ x Hb.
    destruct (decide (x ∈ moves_made st)); [by left|].
    destruct (decide (x ∈ mines st)); [by right|].
    by destruct (Hr x).
Qed.

Lemma C8_make_random_move_witness :
  make_safe_move (mkAI [] 1 2 {[ (0, 0) ]} ∅ {[ (0, 0) ]} []) None
                 (mkAI [] 1 2 {[ (0, 0) ]} ∅ {[ (0, 0) ]} []) ∧
  (∃ r, make_random_move (mkAI [] 1 2 {[ (0, 0) ]} ∅ {[ (0, 0) ]} []) r
                         (mkAI [] 1 2 {[ (0, 0) ]} ∅ {[ (0, 0) ]} [])).
Proof.
  set (st := mkAI [] 1 2 {[ (0, 0) ]} ∅ {[ (0, 0) ]} []).
  assert (Hpre : make_safe_move st None st).
  { change None with (make_safe_move_exec 0 st) at 1.
    apply make_safe_move_exec_run. }
  split; [exact Hpre|].
  exact (proj1 (C8_make_random_move st Hpre)).
Defined.

(** * Soundness of the inference *)

Section truth.
Context (M : gset Cell).
Implicit Types (s d : Sentence) (c : Cell) (st : state) (dc r : nat).

Lemma truthful_remove_safe s c :
  truthful M s → c ∉ M → truthful M (remove_cell c s).
Proof.
  unfold truthful, remove_cell. simpl. intros -> Hc.
  f_equal. set_solver.
Qed.

Lemma truthful_remove_mine s c :
  truthful M s → c ∈ cells s → c ∈ M →
  truthful M (decr_count (remove_cell c s)).
Proof.
  unfold truthful, decr_count, remove_cell. simpl. intros -> Hc HM.
  replace ((cells s ∖ {[c]}) ∩ M) with ((cells s ∩ M) ∖ {[c]}) by set_solver.
  rewrite len_remove; [done|set_solver].
Qed.

Lemma truthful_full s :
  truthful M s → len (cells s) = count s → cells s ⊆ M.
Proof.
  unfold truthful, len. intros -> Hlen.
  assert (cells s ∩ M = cells s) as <-; [|set_solver].
  apply set_subseteq_size_eq; [set_solver|lia].
Qed.

Lemma truthful_zero s c :
  truthful M s → count s = 0 → c ∈ cells s → c ∉ M.
Proof.
  unfold truthful. intros -> H0%len_zero_empty Hc HM. set_solver.
Qed.

Lemma truthful_mark_safe c s :
  c ∉ M → truthful M s → truthful M (Sentence.mark_safe c s).
Proof.
  intros Hc Hs. unfold Sentence.mark_safe. case_decide; [|done].
  by apply (truthful_remove_safe s c).
Qed.

Lemma truthful_mark_mine c s :
  c ∈ M → truthful M s → truthful M (Sentence.mark_mine c s).
Proof.
  intros Hc Hs. unfold Sentence.mark_mine. case_decide as H; [|done].
  destruct H as [H _]. by apply (truthful_remove_mine s c).
Qed.

Lemma truthful_emptied s :
  len (cells s) = count s →
  truthful M (mkSentence (cells s ∖ cells s)
                         (count s - Z.of_nat (length (elements (cells s))))).
Proof.
  unfold truthful, len, size. simpl. intros <-.
  replace ((cells s ∖ cells s) ∩ M) with (∅ : gset Cell) by set_solver.
  unfold set_size. simpl. rewrite elements_empty. simpl. lia.
Qed.

(** Changing a field that the invariant does not read. *)
Lemma sound_mutate r f st :
  (∀ s, truthful M s → truthful M (f s)) →
  sound M st → sound M (mutate r f st).
Proof.
  intros Hf [Hs Hm Hk]. constructor; simpl; [done|done|].
  intros r' Hr'. destruct (Hk r' Hr') as (s & Hl & Ht).
  destruct (decide (r = r')) as [->|Hne].
  - exists (f s). rewrite list_lookup_alter_eq, Hl. auto.
  - exists s. by rewrite list_lookup_alter_ne.
Qed.

Lemma copy_inv_mutate dc f st d :
  heap st !! dc = Some d → truthful M (f d) →
  copy_inv M dc st → copy_inv M dc (mutate dc f st).
Proof.
  intros Hd Hfd ([Hs Hm Hk] & Hdc & _). split; [|split; [done|]].
  - constructor; simpl; [done|done|].
    intros r Hr. destruct (Hk r Hr) as (s & Hl & Ht). exists s.
    rewrite list_lookup_alter_ne; [done|]. by intros ->.
  - exists (f d). simpl. by rewrite list_lookup_alter_eq, Hd.
Qed.

Lemma copy_inv_with_mines dc (X : gset Cell) st :
  X ⊆ M → copy_inv M dc st →
  copy_inv M dc (with_mines (λ m, X ∪ m) st).
Proof.
  intros HX ([Hs Hm Hk] & Hdc & Hd). split; [|done].
  constructor; simpl; [done| |done]. set_solver.
Qed.

Lemma copy_inv_with_safes dc (X : gset Cell) st :
  (∀ c, c ∈ X → c ∉ M) → copy_inv M dc st →
  copy_inv M dc (with_safes (λ m, X ∪ m) st).
Proof.
  intros HX ([Hs Hm Hk] & Hdc & Hd). split; [|done].
  constructor; simpl; [|done|done].
  intros c [?|?]%elem_of_union; auto.
Qed.

Lemma deref_lookup st r s : heap st !! r = Some s → deref st r = s.
Proof. apply list_lookup_total_correct. Qed.

Lemma safes_step_sound dc st safe :
  safe ∉ M → copy_inv M dc st → copy_inv M dc (safes_step dc st safe).
Proof.
  intros Hsafe Hinv. unfold safes_step.
  set (st1 := if decide (safe ∈ cells (deref st dc))
              then mutate dc (remove_cell safe) st else st).
  assert (Hinv1 : copy_inv M dc st1).
  { subst st1. case_decide; [|done].
    pose proof Hinv as (Hs & Hdc & d & Hd & Ht).
    apply (copy_inv_mutate dc _ st d); [done| |done].
    by apply truthful_remove_safe. }
  clearbody st1. clear Hinv st.
  case_decide as Hfull; [|done].
  rewrite collect_mines_spec, drain_spec.
  pose proof Hinv1 as (Hs & Hdc & d & Hd & Ht).
  rewrite (deref_lookup _ _ _ Hd) in *.
  rewrite !list_to_set_elements_L.
  destruct Hfull as [Hlen Hpos].
  apply (copy_inv_mutate dc _ _ d); [done|by apply truthful_emptied|].
  apply copy_inv_with_mines; [by apply truthful_full|done].
Qed.

Lemma mutate_mutate r f g st :
  mutate r f (mutate r g st) = mutate r (f ∘ g) st.
Proof.
  unfold mutate, with_heap. simpl. f_equal. apply list_alter_alter_eq.
Qed.

Lemma mines_step_sound dc st mine :
  mine ∈ M → copy_inv M dc st → copy_inv M dc (mines_step dc st mine).
Proof.
  intros Hmine Hinv. unfold mines_step.
  case_decide as Hin; [|done].
  pose proof Hinv as (Hs & Hdc & d & Hd & Ht).
  rewrite (deref_lookup _ _ _ Hd) in Hin.
  rewrite mutate_mutate.
  set (st1 := mutate dc (decr_count ∘ remove_cell mine) st).
  assert (Hd1 : heap st1 !! dc = Some (decr_count (remove_cell mine d))).
  { subst st1. simpl. by rewrite list_lookup_alter_eq, Hd. }
  assert (Ht1 : truthful M (decr_count (remove_cell mine d))).
  { by apply truthful_remove_mine. }
  assert (Hinv1 : copy_inv M dc st1).
  { subst st1. by apply (copy_inv_mutate dc _ st d). }
  clearbody st1.
  case_decide as Hzero; [|done].
  rewrite collect_safes_spec, (deref_lookup _ _ _ Hd1) in *.
  rewrite list_to_set_elements_L.
  apply copy_inv_with_safes; [|done].
  intros c Hc. destruct Hzero as [Hz _]. by eapply truthful_zero.
Qed.

Lemma copy_inv_sound dc st : copy_inv M dc st → sound M st.
Proof. by intros [? _]. Qed.

Lemma safes_loop_sound dc o st :
  (∀ x, x ∈ o → x ∉ M) → copy_inv M dc st →
  copy_inv M dc (foldl (safes_step dc) st o).
Proof.
  revert st. induction o as [|x o IH]; intros st Ho Hinv; [done|].
  simpl. apply IH.
  - intros y Hy. apply Ho. by apply list_elem_of_further.
  - apply safes_step_sound; [|done]. apply Ho, list_elem_of_here.
Qed.

Lemma mines_loop_sound dc o st :
  (∀ x, x ∈ o → x ∈ M) → copy_inv M dc st →
  copy_inv M dc (foldl (mines_step dc) st o).
Proof.
  revert st. induction o as [|x o IH]; intros st Ho Hinv; [done|].
  simpl. apply IH.
  - intros y Hy. apply Ho. by apply list_elem_of_further.
  - apply mines_step_sound; [|done]. apply Ho, list_elem_of_here.
Qed.

(** The copy of a stored sentence starts out true. *)
Lemma copy_inv_alloc sentence st :
  sound M st → sentence ∈ knowledge st →
  copy_inv M (length (heap st)) (update_copy sentence st).2.
Proof.
  intros [Hs Hm Hk] Hr. unfold update_copy. simpl.
  split; [|split].
  - constructor; simpl; [done|done|].
    intros r' Hr'. destruct (Hk r' Hr') as (s & Hl & Ht). exists s.
    split; [|done]. rewrite lookup_app_l; [done|]. by eapply lookup_lt_Some.
  - intros Hin. destruct (Hk _ Hin) as (s & Hl & _).
    apply lookup_lt_Some in Hl. lia.
  - destruct (Hk _ Hr) as (s & Hl & Ht). exists s.
    rewrite (deref_lookup _ _ _ Hl). split; [|done].
    simpl. rewrite lookup_app_r by done. by rewrite Nat.sub_diag.
Qed.

Lemma update_sentence_sound sentence st st' :
  sound M st → sentence ∈ knowledge st →
  _update_sentence sentence st st' → sound M st'.
Proof.
  intros Hs Hr (o1 & o2 & Ho1 & Ho2 & ->).
  pose proof (copy_inv_alloc sentence st Hs Hr) as Hinv.
  unfold update_sentence_run.
  unfold update_after_safes in *.
  destruct (update_copy sentence st) as [dc st0] eqn:Hcopy.
  assert (dc = length (heap st)) as -> by (by inversion Hcopy).
  simpl in *. case_decide; [|by eapply copy_inv_sound].
  assert (Hinv1 : copy_inv M (length (heap st))
                    (foldl (safes_step (length (heap st))) st0 o1)).
  { apply safes_loop_sound; [|done].
    intros x Hx. apply (sound_safes _ _ Hs).
    by apply (enumerates_elem_of _ _ _ Ho1). }
  eapply copy_inv_sound, mines_loop_sound; [|done].
  intros x Hx. apply (sound_mines _ _ (copy_inv_sound _ _ Hinv1)).
  by apply (enumerates_elem_of _ _ _ Ho2).
Qed.

Lemma propagate_sound ks st st' :
  sound M st → (∀ r, r ∈ ks → r ∈ knowledge st) →
  propagate ks st st' → sound M st'.
Proof.
  intros Hs Hks Hp. induction Hp as [|r rest st st1 st2 Hu Hp IH]; [done|].
  apply IH.
  - eapply update_sentence_sound; [done| |done]. apply Hks, list_elem_of_here.
  - intros r' Hr'. rewrite (gr_knowledge _ _ (update_sentence_grows _ _ _ Hu)).
    by apply Hks, list_elem_of_further.
Qed.

Lemma safe_step_sound new st c :
  c ∉ M → sound M st → sound M (safe_step new st c).
Proof.
  intros Hc Hs. unfold safe_step, add, remove.
  apply (sound_mutate new (Sentence.mark_safe c)) in Hs;
    [|intros s0; by apply truthful_mark_safe].
  destruct Hs as [Hsafe Hmine Hk].
  case_decide; constructor; simpl; try done.
  - intros c' [->%elem_of_singleton|?]%elem_of_union; auto.
  - set_solver.
  - intros c' [->%elem_of_singleton|?]%elem_of_union; auto.
Qed.

Lemma mine_step_sound new st c :
  c ∈ M → sound M st → sound M (mine_step new st c).
Proof.
  intros Hc Hs. unfold mine_step.
  apply (sound_mutate new (Sentence.mark_mine c)) in Hs;
    [|intros s0; by apply truthful_mark_mine].
  destruct Hs as [Hsafe Hmine Hk].
  constructor; simpl; try done. unfold add. set_solver.
Qed.

Lemma safe_loop_sound new o st :
  (∀ x, x ∈ o → x ∉ M) → sound M st → sound M (foldl (safe_step new) st o).
Proof.
  revert st. induction o as [|x o IH]; intros st Ho Hs; [done|].
  simpl. apply IH.
  - intros y Hy. apply Ho. by apply list_elem_of_further.
  - apply safe_step_sound; [|done]. apply Ho, list_elem_of_here.
Qed.

Lemma mine_loop_sound new o st :
  (∀ x, x ∈ o → x ∈ M) → sound M st → sound M (foldl (mine_step new) st o).
Proof.
  revert st. induction o as [|x o IH]; intros st Ho Hs; [done|].
  simpl. apply IH.
  - intros y Hy. apply Ho. by apply list_elem_of_further.
  - apply mine_step_sound; [|done]. apply Ho, list_elem_of_here.
Qed.

(** Lines 216-222 keep the beliefs true when the cell is not a mine and
    the count is the number of mines around it. *)
Lemma add_knowledge_append_sound cell n st :
  sound M st → cell ∉ M →
  n = len (_get_surrounding_cells st cell ∩ M) →
  sound M (add_knowledge_append cell n st).2.
Proof.
  intros [Hsafe Hmine Hk] Hc Hn. unfold add_knowledge_append, add. simpl.
  constructor; simpl.
  - intros c' [->%elem_of_singleton|?]%elem_of_union; auto.
  - done.
  - intros r [Hr|Hr%list_elem_of_singleton]%elem_of_app; [|subst r].
    + destruct (Hk r Hr) as (s & Hl & Ht). exists s. split; [|done].
      rewrite lookup_app_l; [done|]. by eapply lookup_lt_Some.
    + eexists. split.
      * rewrite lookup_app_r by done. by rewrite Nat.sub_diag.
      * unfold truthful, Sentence.init. simpl.
        by rewrite (surrounding_fields st).
Qed.

Lemma add_knowledge_mark_sound o4 o5 cell n st :
  sound M st → cell ∉ M →
  n = len (_get_surrounding_cells st cell ∩ M) →
  (∀ x, x ∈ o4 → x ∈ _get_surrounding_cells st cell) →
  (∀ x, x ∈ o5 → x ∈ _get_surrounding_cells st cell) →
  sound M (add_knowledge_mark o4 o5 cell n st).
Proof.
  intros Hs Hc Hn Ho4 Ho5.
  pose proof (add_knowledge_append_sound cell n st Hs Hc Hn) as Happ.
  assert (Ht : truthful M (mkSentence (_get_surrounding_cells st cell) n)).
  { by unfold truthful. }
  unfold add_knowledge_mark.
  unfold add_knowledge_append in *. simpl in *.
  rewrite (surrounding_fields st) by done.
  set (st0 := with_knowledge _ _) in *. clearbody st0.
  assert (Hs1 : sound M (if decide (n = 0)
      then foldl (safe_step (length (heap st))) st0 o4 else st0)).
  { destruct (decide (n = 0)) as [H0|H0]; [|exact Happ].
    apply safe_loop_sound; [|exact Happ].
    intros x Hx. by apply (truthful_zero _ x Ht), Ho4. }
  destruct (decide (n = len _)) as [Hfull|Hfull]; [|exact Hs1].
  apply mine_loop_sound; [|exact Hs1].
  intros x Hx. by apply (truthful_full _ Ht), Ho5.
Qed.

End truth.


(** * The board and the solver agree on what a count means *)

Section board.
Context (g : Minesweeper.game).
Implicit Types (st : state) (p cell : Cell).

(** Inside a well-formed board every read of [board[i][j]] finds a stored
    value. *)
Lemma board_at_defined p :
  Minesweeper.well_formed g → Minesweeper.in_bounds g p →
  ∃ row, Minesweeper.board g !! Z.to_nat p.1 = Some row ∧
         row !! Z.to_nat p.2 = Some (Minesweeper.board_at g p.1 p.2).
Proof.
  intros (Hh & Hw & Hlen & Hrows) [Hi Hj].
  destruct (lookup_lt_is_Some_2 (Minesweeper.board g) (Z.to_nat p.1))
    as [row Hrow]; [lia|].
  exists row. split; [done|].
  rewrite Forall_forall in Hrows.
  assert (Hr : length row = Z.to_nat (Minesweeper.width g)).
  { apply Hrows. by eapply list_elem_of_lookup_2. }
  destruct (lookup_lt_is_Some_2 row (Z.to_nat p.2)) as [b Hb]; [lia|].
  unfold Minesweeper.board_at. rewrite Hrow. simpl. by rewrite Hb.
Qed.

Lemma elem_of_mine_set p :
  p ∈ mine_set g ↔ Minesweeper.in_bounds g p ∧ Minesweeper.is_mine g p = true.
Proof.
  unfold mine_set, Minesweeper.in_bounds.
  rewrite elem_of_list_to_set, list_elem_of_filter, elem_of_grid.
  split; [intros (Hm & Hb)|intros (Hb & Hm)]; split; assumption.
Qed.

Lemma playable_not_mine cell : playable g cell → cell ∉ mine_set g.
Proof.
  intros [_ Hc]. rewrite elem_of_mine_set. intros [_ Hm]. congruence.
Qed.

Lemma nearby_mines_length cell :
  Minesweeper.nearby_mines g cell
  = Z.of_nat (length (filter (counted g cell)
       (i ← range (cell.1 - 1) (cell.1 + 2);
        j ← range (cell.2 - 1) (cell.2 + 2); [(i, j)]))).
Proof.
  unfold Minesweeper.nearby_mines.
  generalize (i ← range (cell.1 - 1) (cell.1 + 2);
              j ← range (cell.2 - 1) (cell.2 + 2); [(i, j)]).
  intros l.
  enough (H : ∀ a,
    foldl (λ count ij,
             if decide (ij = cell) then count
             else if decide (Minesweeper.in_bounds g ij)
                  then (if Minesweeper.board_at g ij.1 ij.2
                        then count + 1 else count)
                  else count) a l
    = a + Z.of_nat (length (filter (counted g cell) l))) by (by rewrite H).
  induction l as [|p l IH]; intros a; simpl; [lia|].
  rewrite IH, filter_cons.
  destruct (decide (counted g cell p)) as [(Hne & Hb & Hm)|Hc]; simpl.
  - rewrite decide_False by done. rewrite decide_True by done.
    rewrite Hm. simpl. lia.
  - case_decide as Heq; [lia|]. case_decide as Hb; [|lia].
    destruct (Minesweeper.board_at g p.1 p.2) eqn:Hm; [|lia].
    by destruct Hc.
Qed.

(** The count the board reports for a cell is the number of mines in the
    set the solver builds for that cell. *)
Lemma nearby_mines_surrounding st cell :
  height st = Minesweeper.height g → width st = Minesweeper.width g →
  Minesweeper.nearby_mines g cell
  = len (_get_surrounding_cells st cell ∩ mine_set g).
Proof.
  intros Hh Hw. rewrite nearby_mines_length. unfold len. f_equal.
  rewrite <- (size_list_to_set (C := gset Cell))
    by (apply NoDup_filter, NoDup_grid).
  f_equal. apply set_eq. intros p.
  rewrite elem_of_list_to_set, list_elem_of_filter, elem_of_grid.
  rewrite elem_of_intersection, elem_of_surrounding, elem_of_mine_set.
  unfold counted, Minesweeper.in_bounds, Minesweeper.is_mine.
  rewrite Hh, Hw. split.
  - intros ((Hne & [? ?] & Hm) & ? & ?).
    split; [|done]. split; [lia|]. split; [lia|done].
  - intros ((? & ? & Hne) & [? ?] & Hm).
    split; [done|]. lia.
Qed.

(** Every state of a game is sound for the mines of its board. *)
Lemma plays_sound moves st :
  plays g moves st →
  sound (mine_set g) st ∧
  height st = Minesweeper.height g ∧ width st = Minesweeper.width g.
Proof.
  induction 1 as [|moves cell st st' Hplay (Hs & Hh & Hw) Hcell Hadd].
  - split; [|done]. constructor; simpl; [set_solver|set_solver|].
    intros r Hr. by apply elem_of_nil in Hr.
  - destruct Hadd as (o4 & o5 & Ho4 & Ho5 & Hp).
    pose proof (add_knowledge_mark_fields o4 o5 cell
                  (Minesweeper.nearby_mines g cell) st) as (Hh1 & Hw1 & _).
    pose proof (propagate_grows _ _ _ Hp) as Hg.
    split; [|split; [by rewrite (gr_height _ _ Hg), Hh1
                    |by rewrite (gr_width _ _ Hg), Hw1]].
    eapply propagate_sound; [|by intros r Hr; exact Hr|exact Hp].
    apply add_knowledge_mark_sound.
    + done.
    + by apply playable_not_mine.
    + by apply nearby_mines_surrounding.
    + intros x Hx. by apply (enumerates_elem_of _ _ _ Ho4).
    + intros x Hx. by apply (enumerates_elem_of _ _ _ Ho5).
Qed.

End board.

(** ** C1: [safes] and [mines] stay disjoint *)

(** The scenario of the specification: on the 1x3 board with a mine at
    [(0,2)], revealing [(0,0)] (count 0) makes [(0,1)] safe at once. *)
Example scenario_1x3 :
  let st := add_knowledge_exec (0, 0) (Minesweeper.nearby_mines board_1x3 (0, 0))
              (init 1 3) in
  Minesweeper.nearby_mines board_1x3 (0, 0) = 0 ∧
  (0, 0) ∈ safes st ∧ (0, 1) ∈ safes st ∧ mines st = ∅.
Proof.
  split; [vm_compute; reflexivity|].
  split; [|split]; apply (bool_decide_unpack _); vm_compute; reflexivity.
Qed.

(** C1: take any board and any sequence of moves on it, each a cell of the
    board that is not a mine, reported to a freshly constructed solver by
    [add_knowledge(cell, nearby_mines(cell))].  After each call, whatever
    order the sets were iterated in, [safes] and [mines] are disjoint. *)
Theorem C1_safes_mines_disjoint (g : Minesweeper.game) (moves : list Cell)
    (st : state) :
  Minesweeper.well_formed g →
  plays g moves st →
  safes st ## mines st.
Proof.
  intros _ Hplay. apply plays_sound in Hplay as ([Hsafe Hmine _] & _).
  intros c Hs Hm. apply (Hsafe c Hs). by apply Hmine.
Qed.

Lemma C1_safes_mines_disjoint_witness :
  Minesweeper.well_formed board_1x3 ∧
  plays board_1x3 [(0, 0); (0, 1)]
    (add_knowledge_exec (0, 1) 1 (add_knowledge_exec (0, 0) 0 (init 1 3))) ∧
  safes (add_knowledge_exec (0, 1) 1 (add_knowledge_exec (0, 0) 0 (init 1 3)))
  ## mines (add_knowledge_exec (0, 1) 1 (add_knowledge_exec (0, 0) 0 (init 1 3))).
Proof.
  assert (Hwf : Minesweeper.well_formed board_1x3).
  { unfold Minesweeper.well_formed. simpl.
    split; [lia|]. split; [lia|]. split; [reflexivity|].
    repeat constructor. }
  assert (Hplay : plays board_1x3 [(0, 0); (0, 1)]
    (add_knowledge_exec (0, 1) 1 (add_knowledge_exec (0, 0) 0 (init 1 3)))).
  { apply (plays_move board_1x3 [(0, 0)] (0, 1)
             (add_knowledge_exec (0, 0) 0 (init 1 3))).
    - apply (plays_move board_1x3 [] (0, 0) (init 1 3)).
      + apply plays_start.
      + apply (bool_decide_unpack _). vm_compute. reflexivity.
      + apply add_knowledge_exec_run.
    - apply (bool_decide_unpack _). vm_compute. reflexivity.
    - apply add_knowledge_exec_run. }
  split; [exact Hwf|]. split; [exact Hplay|].
  exact (C1_safes_mines_disjoint _ _ _ Hwf Hplay).
Defined.

(** The counts have to be the board's.  No 1x2 board reports 3 mines
    around [(0,0)] and then shows [(0,1)] to be free of mines; a solver fed
    these two calls ends with [(0,1)] in both sets. *)
Remark counts_must_come_from_the_board :
  let st := add_knowledge_exec (0, 1) 0 (add_knowledge_exec (0, 0) 3 (init 1 2)) in
  add_knowledge (0, 1) 0 (add_knowledge_exec (0, 0) 3 (init 1 2)) st ∧
  (0, 1) ∈ safes st ∧ (0, 1) ∈ mines st.
Proof.
  split; [apply add_knowledge_exec_run|].
  split; apply (bool_decide_unpack _); vm_compute; reflexivity.
Qed.

(** ** C4: a sentence [{A,B,C} = 2] with [C] known safe *)

Section resolution.
Implicit Types (st : state) (dc r : nat) (s : Sentence) (o : list Cell).

Lemma propagate_app_inv k1 k2 st st' :
  propagate (k1 ++ k2) st st' →
  ∃ st1, propagate k1 st st1 ∧ propagate k2 st1 st'.
Proof.
  revert st. induction k1 as [|r k1 IH]; intros st Hp; simpl in *.
  - exists st. split; [constructor|done].
  - inversion Hp as [|? ? ? sta ? Hu Hrest]; subst.
    destruct (IH _ Hrest) as (st1 & Hp1 & Hp2).
    exists st1. split; [by econstructor|done].
Qed.

(** While no visited cell belongs to the copy and the copy is not full,
    the first loop does nothing. *)
Lemma safes_loop_idle dc o st s :
  heap st !! dc = Some s →
  (∀ x, x ∈ o → x ∉ cells s) →
  len (cells s) ≠ count s →
  foldl (safes_step dc) st o = st.
Proof.
  intros Hs Ho Hlen. induction o as [|x o IH]; [done|]. simpl.
  assert (safes_step dc st x = st) as ->.
  { unfold safes_step. rewrite (deref_lookup _ _ _ Hs).
    destruct (decide (x ∈ cells s)) as [Hin|_].
    { by destruct (Ho x (list_elem_of_here _ _)). }
    rewrite (deref_lookup _ _ _ Hs).
    destruct (decide (_ ∧ _)) as [[? _]|_]; done. }
  apply IH. intros y Hy. by apply Ho, list_elem_of_further.
Qed.

(** Visiting a member whose removal makes the copy full turns every cell
    left in the copy into a mine. *)
Lemma safes_step_fills dc st s x :
  heap st !! dc = Some s →
  x ∈ cells s →
  len (cells s ∖ {[x]}) = count s → count s > 0 →
  cells s ∖ {[x]} ⊆ mines (safes_step dc st x).
Proof.
  intros Hs Hx Hlen Hpos. unfold safes_step.
  rewrite (deref_lookup _ _ _ Hs).
  destruct (decide (x ∈ cells s)) as [_|Hn]; [|done].
  assert (Hd : heap (mutate dc (remove_cell x) st) !! dc
               = Some (remove_cell x s)).
  { simpl. by rewrite list_lookup_alter_eq, Hs. }
  rewrite (deref_lookup _ _ _ Hd). simpl.
  destruct (decide (_ ∧ _)) as [_|Hn]; [|destruct Hn; split; [done|lia]].
  rewrite collect_mines_spec, drain_spec. simpl.
  rewrite list_to_set_elements_L. set_solver.
Qed.

Lemma len_three (A B C : Cell) :
  A ≠ B → A ≠ C → B ≠ C → len {[A; B; C]} = 3.
Proof.
  intros. unfold len.
  rewrite !size_union, !size_singleton by set_solver. done.
Qed.

Lemma len_three_less_one (A B C : Cell) :
  A ≠ B → A ≠ C → B ≠ C → len ({[A; B; C]} ∖ {[C]}) = 2.
Proof.
  intros. rewrite len_remove by set_solver. rewrite len_three by done. done.
Qed.

(** One call of [_update_sentence] on [{A,B,C} = 2]. *)
Lemma update_sentence_resolves r st st' (A B C : Cell) :
  A ≠ B → A ≠ C → B ≠ C →
  heap st !! r = Some (mkSentence {[A; B; C]} 2) →
  C ∈ safes st → A ∉ safes st → B ∉ safes st →
  _update_sentence r st st' →
  A ∈ mines st' ∧ B ∈ mines st'.
Proof.
  intros HAB HAC HBC Hr HC HA HB (o1 & o2 & Ho1 & Ho2 & ->).
  set (s := mkSentence {[A; B; C]} 2) in *.
  unfold update_sentence_run, update_after_safes, update_copy. simpl.
  set (dc := length (heap st)).
  set (st0 := with_heap (λ h, h ++ [deref st r]) st).
  assert (Hdc : heap st0 !! dc = Some s).
  { subst st0 dc. simpl. rewrite (deref_lookup _ _ _ Hr).
    rewrite lookup_app_r by done. by rewrite Nat.sub_diag. }
  assert (Hr0 : heap st0 !! r = Some s).
  { subst st0. simpl. rewrite lookup_app_l; [done|]. by eapply lookup_lt_Some. }
  rewrite decide_True.
  2:{ unfold update_guard. rewrite (deref_lookup _ _ _ Hdc),
        (deref_lookup _ _ _ Hr0). simpl. rewrite len_three by done. lia. }
  (* the second loop only adds to [mines] *)
  enough (Hmines : A ∈ mines (foldl (safes_step dc) st0 o1)
                   ∧ B ∈ mines (foldl (safes_step dc) st0 o1)).
  { pose proof (step_frame_foldl dc (mines_step dc) o2
                  (foldl (safes_step dc) st0 o1) (mines_step_frame dc)) as Hf.
    destruct Hmines. split; by apply (sf_mines _ _ _ Hf). }
  (* the first loop: nothing happens until it visits [C] *)
  assert (HCo : C ∈ o1) by (by apply (enumerates_elem_of _ _ _ Ho1)).
  apply list_elem_of_split in HCo as (pre & post & ->).
  destruct Ho1 as [Hnd Hset].
  apply NoDup_app in Hnd as (_ & Hpre & _).
  rewrite foldl_app. simpl.
  rewrite (safes_loop_idle dc pre st0 s Hdc).
  2:{ intros x Hx. simpl. intros Hin.
      assert (x ∈ safes st).
      { rewrite <- Hset. rewrite elem_of_list_to_set, elem_of_app. by left. }
      assert (x ≠ C).
      { intros ->. apply (Hpre C Hx), list_elem_of_here. }
      set_solver. }
  2:{ simpl. rewrite len_three by done. lia. }
  pose proof (safes_step_fills dc st0 s C Hdc) as Hfill.
  simpl in Hfill.
  assert (Hsub : {[A; B; C]} ∖ {[C]} ⊆ mines (safes_step dc st0 C)).
  { apply Hfill; [set_solver| |lia]. by apply len_three_less_one. }
  pose proof (step_frame_foldl dc (safes_step dc) post
                (safes_step dc st0 C) (safes_step_frame dc)) as Hf.
  split; apply (sf_mines _ _ _ Hf), Hsub; set_solver.
Qed.

End resolution.

(** C4, as stated, fails: in [stuck_corner] the solver stores
    [{(0,1),(1,0),(1,1)} = 2] and knows [(1,1)] safe, and after the
    propagation pass, however the sets are iterated, the stored sentence is
    still [{(0,1),(1,0),(1,1)} = 2]; it has not become
    [{(0,1),(1,0)} = 2]. *)
Lemma C4_stored_sentence_is_not_reduced :
  (0%nat ∈ knowledge stuck_corner ∧
   heap stuck_corner !! 0%nat
   = Some (mkSentence {[ (0, 1); (1, 0); (1, 1) ]} 2) ∧
   (1, 1) ∈ safes stuck_corner) ∧
  (∃ st', propagate (knowledge stuck_corner) stuck_corner st') ∧
  (∀ st', propagate (knowledge stuck_corner) stuck_corner st' →
     heap st' !! 0%nat = Some (mkSentence {[ (0, 1); (1, 0); (1, 1) ]} 2) ∧
     heap st' !! 0%nat ≠ Some (mkSentence {[ (0, 1); (1, 0) ]} 2)).
Proof.
  assert (H0 : heap stuck_corner !! 0%nat
               = Some (mkSentence {[ (0, 1); (1, 0); (1, 1) ]} 2)).
  { apply (bool_decide_unpack _). vm_compute. reflexivity. }
  split; [split; [|split; [exact H0|]]|split].
  - apply (bool_decide_unpack _). vm_compute. reflexivity.
  - apply (bool_decide_unpack _). vm_compute. reflexivity.
  - eexists. apply propagate_exec_run.
  - intros st' Hp. apply propagate_grows in Hp.
    pose proof (gr_heap _ _ Hp _ _ H0) as H0'. split; [exact H0'|].
    rewrite H0'. apply (bool_decide_unpack _). vm_compute. reflexivity.
Qed.

(** C4, amended: if the solver's knowledge contains a sentence
    [{A,B,C} = 2] and [C] is in [safes], the propagation pass run by
    [add_knowledge] leaves the stored sentence as it is (the reduction to
    [{A,B} = 2] happens on a deep copy) and, when neither [A] nor [B] is in
    [safes] at the end of the pass, it has added both [A] and [B] to
    [mines]. *)
Theorem C4_subset_equal_count (st st' : state) (r : nat) (A B C : Cell) :
  A ≠ B → A ≠ C → B ≠ C →
  r ∈ knowledge st →
  heap st !! r = Some (mkSentence {[A; B; C]} 2) →
  C ∈ safes st →
  propagate (knowledge st) st st' →
  A ∉ safes st' → B ∉ safes st' →
  heap st' !! r = Some (mkSentence {[A; B; C]} 2) ∧
  A ∈ mines st' ∧ B ∈ mines st'.
Proof.
  intros HAB HAC HBC Hr Hs HC Hp HA HB.
  split; [by apply (gr_heap _ _ (propagate_grows _ _ _ Hp))|].
  apply list_elem_of_split in Hr as (k1 & k2 & Hk). rewrite Hk in Hp.
  apply propagate_app_inv in Hp as (sta & Hp1 & Hp2).
  inversion Hp2 as [|? ? ? stb ? Hu Hp3]; subst.
  pose proof (propagate_grows _ _ _ Hp1) as G1.
  pose proof (update_sentence_grows _ _ _ Hu) as G2.
  pose proof (propagate_grows _ _ _ Hp3) as G3.
  destruct (update_sentence_resolves r sta stb A B C) as [HmA HmB]; try done.
  - by apply (gr_heap _ _ G1).
  - by apply (gr_safes _ _ G1).
  - intros Hin. by apply HA, (gr_safes _ _ G3), (gr_safes _ _ G2).
  - intros Hin. by apply HB, (gr_safes _ _ G3), (gr_safes _ _ G2).
  - split; by apply (gr_mines _ _ G3).
Qed.

Lemma C4_subset_equal_count_witness :
  propagate (knowledge stuck_corner) stuck_corner
            (propagate_exec (knowledge stuck_corner) stuck_corner) ∧
  (0, 1) ∈ mines (propagate_exec (knowledge stuck_corner) stuck_corner) ∧
  (1, 0) ∈ mines (propagate_exec (knowledge stuck_corner) stuck_corner).
Proof.
  assert (Hp : propagate (knowledge stuck_corner) stuck_corner
                 (propagate_exec (knowledge stuck_corner) stuck_corner)).
  { apply propagate_exec_run. }
  split; [exact Hp|].
  refine (proj2 (C4_subset_equal_count stuck_corner _ 0%nat (0, 1) (1, 0) (1, 1)
                   _ _ _ _ _ _ Hp _ _)).
  - discriminate.
  - discriminate.
  - discriminate.
  - apply (bool_decide_unpack _). vm_compute. reflexivity.
  - apply (bool_decide_unpack _). vm_compute. reflexivity.
  - apply (bool_decide_unpack _). vm_compute. reflexivity.
  - apply (bool_decide_unpack _). vm_compute. reflexivity.
  - apply (bool_decide_unpack _). vm_compute. reflexivity.
Defined.


(** * Further properties of [Sentence] *)

Section sentence_more.
Implicit Types (s : Sentence) (c : Cell) (X : gset Cell) (o : list Cell).

Lemma mark_mine_cells s c :
  cells (Sentence.mark_mine c s) ⊆ cells s.
Proof. unfold Sentence.mark_mine. case_decide; simpl; set_solver. Qed.

Lemma mark_mine_again s c :
  Sentence.mark_mine c (Sentence.mark_mine c s) = Sentence.mark_mine c s.
Proof.
  destruct (decide (c ∈ cells s ∧ count s > 0)) as [[Hc Hp]|H].
  - rewrite (mark_mine_hit s c) by done.
    apply mark_mine_miss. simpl. set_solver.
  - rewrite (mark_mine_miss s c) by done. by apply mark_mine_miss.
Qed.

Lemma mark_safe_again s c :
  Sentence.mark_safe c (Sentence.mark_safe c s) = Sentence.mark_safe c s.
Proof.
  destruct (decide (c ∈ cells s ∧ count s > 0)) as [[Hc Hp]|H].
  - rewrite (mark_safe_hit s c) by done.
    apply mark_safe_miss. simpl. set_solver.
  - rewrite (mark_safe_miss s c) by done. by apply mark_safe_miss.
Qed.

(** Marking, one after the other, distinct members of a full sentence as
    mines. *)
Lemma mark_mine_all o s :
  NoDup o → (∀ x, x ∈ o → x ∈ cells s) → count s = len (cells s) →
  foldl (λ s x, Sentence.mark_mine x s) s o
  = mkSentence (cells s ∖ list_to_set o) (count s - Z.of_nat (length o)).
Proof.
  revert s. induction o as [|x o IH]; intros s Hnd Hin Hfull.
  - simpl. destruct s as [cs n]. simpl. f_equal; [set_solver|lia].
  - apply NoDup_cons in Hnd as [Hx Hnd]. simpl.
    assert (Hxs : x ∈ cells s) by apply Hin, list_elem_of_here.
    pose proof (len_pos_elem _ _ Hxs) as Hpos.
    rewrite mark_mine_hit by (done || lia).
    rewrite IH; simpl.
    + f_equal; [set_solver|lia].
    + done.
    + intros y Hy. apply elem_of_difference. split.
      * by apply Hin, list_elem_of_further.
      * intros ->%elem_of_singleton. done.
    + rewrite len_remove by done. lia.
Qed.

(** Marking cells of a sentence whose count is 0 as safe does nothing. *)
Lemma mark_safe_all_at_zero o s :
  count s = 0 → foldl (λ s x, Sentence.mark_safe x s) s o = s.
Proof.
  intros H0. induction o as [|x o IH]; [done|]. simpl.
  rewrite mark_safe_miss; [done|]. intros [_ ?]. lia.
Qed.

End sentence_more.

(** X1: a sentence never reports cells both as mines and as safe: when
    [known_mines()] and [known_safes()] both return a collection, the
    sentence has no cells and both collections are empty. *)
Theorem X1_known_mines_and_safes_exclusive (s : Sentence) (X Y : gset Cell) :
  Sentence.known_mines s = Some X →
  Sentence.known_safes s = Some Y →
  cells s = ∅ ∧ X = ∅ ∧ Y = ∅.
Proof.
  unfold Sentence.known_mines, Sentence.known_safes.
  case_decide as Hm; [|done]. case_decide as Hs; [|done].
  intros [= <-] [= <-].
  assert (cells s = ∅) by (apply len_zero_empty; lia). done.
Qed.

Lemma X1_known_mines_and_safes_exclusive_witness :
  Sentence.known_mines (mkSentence ∅ 0) = Some ∅ ∧
  Sentence.known_safes (mkSentence ∅ 0) = Some ∅ ∧
  cells (mkSentence ∅ 0) = ∅.
Proof.
  assert (H1 : Sentence.known_mines (mkSentence ∅ 0) = Some ∅)
    by (vm_compute; reflexivity).
  assert (H2 : Sentence.known_safes (mkSentence ∅ 0) = Some ∅)
    by (vm_compute; reflexivity).
  split; [exact H1|]. split; [exact H2|].
  exact (proj1 (X1_known_mines_and_safes_exclusive _ _ _ H1 H2)).
Defined.

(** X2: [mark_mine] and [mark_safe] are idempotent: a second call with the
    same cell changes nothing, whatever the first call did. *)
Theorem X2_mark_twice (s : Sentence) (c : Cell) :
  Sentence.mark_mine c (Sentence.mark_mine c s) = Sentence.mark_mine c s ∧
  Sentence.mark_safe c (Sentence.mark_safe c s) = Sentence.mark_safe c s.
Proof. split; [apply mark_mine_again|apply mark_safe_again]. Qed.

(** X3: [mark_mine] only ever removes cells, leaves the number of cells
    not counted as mines ([len(cells) - count]) unchanged, and never takes
    a non-negative count below zero. *)
Theorem X3_mark_mine_conserves (s : Sentence) (c : Cell) :
  cells (Sentence.mark_mine c s) ⊆ cells s ∧
  len (cells (Sentence.mark_mine c s)) - count (Sentence.mark_mine c s)
  = len (cells s) - count s ∧
  (0 ≤ count s → 0 ≤ count (Sentence.mark_mine c s)).
Proof.
  split; [apply mark_mine_cells|].
  unfold Sentence.mark_mine. case_decide as H; simpl; [|done].
  destruct H as [Hc Hpos]. rewrite len_remove by done. split; lia.
Qed.

Lemma X3_mark_mine_conserves_witness :
  0 ≤ count (mkSentence {[ (0, 0); (0, 1) ]} 1) ∧
  0 ≤ count (Sentence.mark_mine (0, 0) (mkSentence {[ (0, 0); (0, 1) ]} 1)).
Proof.
  assert (H : 0 ≤ count (mkSentence {[ (0, 0); (0, 1) ]} 1)) by (simpl; lia).
  split; [exact H|].
  exact (proj2 (proj2 (X3_mark_mine_conserves
                         (mkSentence {[ (0, 0); (0, 1) ]} 1) (0, 0))) H).
Defined.

(** X4: when [known_mines()] reports a collection, calling [mark_mine] on
    each reported cell, in any order, leaves the sentence with no cells and
    count 0. *)
Theorem X4_marking_known_mines_empties (s : Sentence) (X : gset Cell)
    (o : list Cell) :
  Sentence.known_mines s = Some X →
  enumerates o X →
  foldl (λ s x, Sentence.mark_mine x s) s o = mkSentence ∅ 0.
Proof.
  unfold Sentence.known_mines. case_decide as Hfull; [|done].
  intros [= <-] [Hnd Hset].
  rewrite mark_mine_all; [|done| |done].
  - f_equal; [rewrite Hset; set_solver|].
    rewrite Hfull. unfold len. rewrite <- Hset, size_list_to_set by done. lia.
  - intros x Hx. rewrite <- Hset. by apply elem_of_list_to_set.
Qed.

Lemma X4_marking_known_mines_empties_witness :
  Sentence.known_mines (mkSentence {[ (0, 0); (0, 1) ]} 2)
  = Some {[ (0, 0); (0, 1) ]} ∧
  enumerates [(0, 1); (0, 0)] {[ (0, 0); (0, 1) ]} ∧
  foldl (λ s x, Sentence.mark_mine x s)
        (mkSentence {[ (0, 0); (0, 1) ]} 2) [(0, 1); (0, 0)]
  = mkSentence ∅ 0.
Proof.
  assert (H1 : Sentence.known_mines (mkSentence {[ (0, 0); (0, 1) ]} 2)
               = Some {[ (0, 0); (0, 1) ]}) by (vm_compute; reflexivity).
  assert (H2 : enumerates [(0, 1); (0, 0)] {[ (0, 0); (0, 1) ]}).
  { apply (bool_decide_unpack _). vm_compute. reflexivity. }
  split; [exact H1|]. split; [exact H2|].
  exact (X4_marking_known_mines_empties _ _ _ H1 H2).
Defined.

(** X5: when [known_safes()] reports a collection, calling [mark_safe] on
    the reported cells (on any cells at all) leaves the sentence as it is:
    the guard [count > 0] of [mark_safe] keeps a sentence of count 0 from
    losing cells. *)
Theorem X5_marking_known_safes_keeps (s : Sentence) (X : gset Cell)
    (o : list Cell) :
  Sentence.known_safes s = Some X →
  foldl (λ s x, Sentence.mark_safe x s) s o = s.
Proof.
  unfold Sentence.known_safes. case_decide as H0; [|done].
  intros _. by apply mark_safe_all_at_zero.
Qed.

Lemma X5_marking_known_safes_keeps_witness :
  Sentence.known_safes (mkSentence {[ (0, 0); (0, 1) ]} 0)
  = Some {[ (0, 0); (0, 1) ]} ∧
  foldl (λ s x, Sentence.mark_safe x s)
        (mkSentence {[ (0, 0); (0, 1) ]} 0) [(0, 1); (0, 0)]
  = mkSentence {[ (0, 0); (0, 1) ]} 0.
Proof.
  assert (H1 : Sentence.known_safes (mkSentence {[ (0, 0); (0, 1) ]} 0)
               = Some {[ (0, 0); (0, 1) ]}) by (vm_compute; reflexivity).
  split; [exact H1|].
  exact (X5_marking_known_safes_keeps _ _ [(0, 1); (0, 0)] H1).
Defined.

(** * The solver's [mark_mine] and [mark_safe] *)

Section broadcast.
Implicit Types (st : state) (r : nat) (ks : list nat) (c : Cell).

(** Applying an idempotent update to every object that [ks] refers to. *)
Lemma broadcast_spec (f : Sentence → Sentence) ks st :
  (∀ s, f (f s) = f s) →
  let st' := foldl (λ st r, mutate r f st) st ks in
  height st' = height st ∧ width st' = width st ∧
  moves_made st' = moves_made st ∧ mines st' = mines st ∧
  safes st' = safes st ∧ knowledge st' = knowledge st ∧
  ∀ r, heap st' !! r
       = if decide (r ∈ ks) then f <$> heap st !! r else heap st !! r.
Proof.
  intros Hf. revert st. induction ks as [|r0 ks IH]; intros st; simpl.
  - split_and!; try done.
    all: intros r; rewrite decide_False; [done|]; apply not_elem_of_nil.
  - destruct (IH (mutate r0 f st)) as (H1 & H2 & H3 & H4 & H5 & H6 & H7).
    split_and!; try done.
    intros r. rewrite H7. simpl. rewrite list_lookup_alter.
    destruct (decide (r ∈ ks)) as [Hin|Hin];
      destruct (decide (r0 = r)) as [->|Hne].
    + rewrite decide_True by apply list_elem_of_here.
      destruct (heap st !! r); simpl; by rewrite ?Hf.
    + rewrite decide_True by (by apply list_elem_of_further). done.
    + rewrite decide_True by apply list_elem_of_here. done.
    + rewrite decide_False; [done|].
      intros [?|?]%elem_of_cons; congruence.
Qed.

Lemma sound_broadcast (M : gset Cell) (f : Sentence → Sentence) ks st :
  (∀ s, truthful M s → truthful M (f s)) →
  sound M st → sound M (foldl (λ st r, mutate r f st) st ks).
Proof.
  intros Hf. revert st. induction ks as [|r0 ks IH]; intros st Hs; [done|].
  simpl. apply IH. by apply sound_mutate.
Qed.

End broadcast.

(** X6: the solver's [mark_mine(cell)] adds [cell] to [mines] and applies
    [Sentence.mark_mine(cell)] to every sentence that [knowledge] refers
    to; [safes], [moves_made], the list [knowledge] and every other object
    stay as they were. *)
Theorem X6_mark_mine_broadcast (cell : Cell) (st : state) :
  mines (mark_mine cell st) = {[cell]} ∪ mines st ∧
  safes (mark_mine cell st) = safes st ∧
  moves_made (mark_mine cell st) = moves_made st ∧
  knowledge (mark_mine cell st) = knowledge st ∧
  (∀ r, heap (mark_mine cell st) !! r
        = if decide (r ∈ knowledge st)
          then Sentence.mark_mine cell <$> heap st !! r
          else heap st !! r).
Proof.
  unfold mark_mine.
  destruct (broadcast_spec (Sentence.mark_mine cell) (knowledge st)
              (with_mines (add cell) st))
    as (_ & _ & H3 & H4 & H5 & H6 & H7).
  { intros s. apply mark_mine_again. }
  split_and!; done.
Qed.

(** X7: the solver's [mark_safe(cell)] adds [cell] to [safes] and applies
    [Sentence.mark_safe(cell)] to every sentence that [knowledge] refers
    to; [mines], [moves_made], the list [knowledge] and every other object
    stay as they were. *)
Theorem X7_mark_safe_broadcast (cell : Cell) (st : state) :
  safes (mark_safe cell st) = {[cell]} ∪ safes st ∧
  mines (mark_safe cell st) = mines st ∧
  moves_made (mark_safe cell st) = moves_made st ∧
  knowledge (mark_safe cell st) = knowledge st ∧
  (∀ r, heap (mark_safe cell st) !! r
        = if decide (r ∈ knowledge st)
          then Sentence.mark_safe cell <$> heap st !! r
          else heap st !! r).
Proof.
  unfold mark_safe.
  destruct (broadcast_spec (Sentence.mark_safe cell) (knowledge st)
              (with_safes (add cell) st))
    as (_ & _ & H3 & H4 & H5 & H6 & H7).
  { intros s. apply mark_safe_again. }
  split_and!; done.
Qed.

(** X8: marking a cell that holds a mine with [mark_mine], or a cell that
    holds none with [mark_safe], keeps the solver's beliefs true of the
    mine set [M]: no mine in [safes], only mines in [mines], and every
    stored sentence counting exactly the mines among its cells. *)
Theorem X8_marking_keeps_beliefs_true (M : gset Cell) (cell : Cell)
    (st : state) :
  sound M st →
  (cell ∈ M → sound M (mark_mine cell st)) ∧
  (cell ∉ M → sound M (mark_safe cell st)).
Proof.
  intros [Hsafe Hmine Hk]. split; intros Hc.
  - unfold mark_mine. apply sound_broadcast.
    + intros s. by apply truthful_mark_mine.
    + constructor; simpl; [done| |done]. unfold add. set_solver.
  - unfold mark_safe. apply sound_broadcast.
    + intros s. by apply truthful_mark_safe.
    + constructor; simpl; [|done|done]. unfold add.
      intros c' [->%elem_of_singleton|?]%elem_of_union; auto.
Qed.

Lemma X8_marking_keeps_beliefs_true_witness :
  sound (mine_set board_1x3) (add_knowledge_exec (0, 1) 1 (init 1 3)) ∧
  (0, 2) ∈ mine_set board_1x3 ∧
  sound (mine_set board_1x3)
        (mark_mine (0, 2) (add_knowledge_exec (0, 1) 1 (init 1 3))).
Proof.
  assert (Hs : sound (mine_set board_1x3)
                 (add_knowledge_exec (0, 1) 1 (init 1 3))).
  { apply (plays_sound board_1x3 [(0, 1)]).
    apply (plays_move board_1x3 [] (0, 1) (init 1 3)).
    - apply plays_start.
    - apply (bool_decide_unpack _). vm_compute. reflexivity.
    - apply add_knowledge_exec_run. }
  assert (Hc : (0, 2) ∈ mine_set board_1x3).
  { apply (bool_decide_unpack _). vm_compute. reflexivity. }
  split; [exact Hs|]. split; [exact Hc|].
  exact (proj1 (X8_marking_keeps_beliefs_true _ (0, 2) _ Hs) Hc).
Defined.

(** * Counting cells *)

Section counting.
Implicit Types (st : state) (p cell : Cell).

Lemma length_bind_const {A B} (f : A → list B) (k : nat) (l : list A) :
  (∀ x, length (f x) = k) → length (l ≫= f) = (length l * k)%nat.
Proof.
  intros Hf. induction l as [|x l IH]; [done|].
  rewrite bind_cons, length_app, Hf, IH. simpl. lia.
Qed.

Lemma length_grid a b c d :
  length (A := Cell) (i ← range a b; j ← range c d; [(i, j)])
  = (Z.to_nat (b - a) * Z.to_nat (d - c))%nat.
Proof.
  rewrite (length_bind_const _ (Z.to_nat (d - c))).
  - unfold range. by rewrite length_seqZ.
  - intros i. rewrite (length_bind_const _ 1%nat) by done.
    unfold range. rewrite length_seqZ. lia.
Qed.

Lemma len_grid a b c d :
  len (list_to_set (i ← range a b; j ← range c d; [(i, j)]))
  = Z.max 0 (b - a) * Z.max 0 (d - c).
Proof.
  unfold len. rewrite size_list_to_set by apply NoDup_grid.
  rewrite length_grid, Nat2Z.inj_mul. f_equal; lia.
Qed.

Lemma elem_of_block cell p : p ∈ block cell ↔ chebyshev p cell ≤ 1.
Proof.
  unfold block, chebyshev. rewrite elem_of_list_to_set, elem_of_grid. lia.
Qed.

Lemma len_block cell : len (block cell) = 9.
Proof.
  unfold block. rewrite len_grid.
  replace (cell.1 + 2 - (cell.1 - 1)) with 3 by lia.
  replace (cell.2 + 2 - (cell.2 - 1)) with 3 by lia. done.
Qed.

Lemma surrounding_in_block st cell :
  _get_surrounding_cells st cell ⊆ block cell ∖ {[cell]}.
Proof.
  intros p. rewrite elem_of_surrounding, elem_of_difference, elem_of_block,
    elem_of_singleton.
  unfold chebyshev. intros (? & ? & ?). split; [lia|done].
Qed.

Lemma len_surrounding_le st cell : len (_get_surrounding_cells st cell) ≤ 8.
Proof.
  pose proof (subseteq_size _ _ (surrounding_in_block st cell)) as Hle.
  assert (Hc : cell ∈ block cell).
  { apply elem_of_block. unfold chebyshev. lia. }
  pose proof (len_remove _ _ Hc) as Hrem. rewrite len_block in Hrem.
  unfold len in *. lia.
Qed.

End counting.

(** X9: [_get_all_cells()] holds exactly the cells with row in
    [[0, height)] and column in [[0, width)], and therefore
    [max(0, height) * max(0, width)] of them. *)
Theorem X9_get_all_cells (st : state) :
  (∀ p, p ∈ _get_all_cells st ↔ 0 ≤ p.1 < height st ∧ 0 ≤ p.2 < width st) ∧
  len (_get_all_cells st) = Z.max 0 (height st) * Z.max 0 (width st).
Proof.
  split; [intros p; apply elem_of_get_all_cells|].
  unfold _get_all_cells. rewrite len_grid. f_equal; lia.
Qed.

(** X10: the set [_get_surrounding_cells(cell)] never contains [cell]; its
    members are within Chebyshev distance 1 of [cell], with row in
    [[0, height]] and column in [[0, width]] (both ends included); and it
    has at most 8 members. *)
Theorem X10_surrounding_cells_shape (st : state) (cell : Cell) :
  cell ∉ _get_surrounding_cells st cell ∧
  (∀ p, p ∈ _get_surrounding_cells st cell →
        chebyshev p cell ≤ 1 ∧
        0 ≤ p.1 ≤ height st ∧ 0 ≤ p.2 ≤ width st) ∧
  len (_get_surrounding_cells st cell) ≤ 8.
Proof.
  split; [rewrite elem_of_surrounding; by intros (_ & _ & ?)|].
  split; [|apply len_surrounding_le].
  intros p. rewrite elem_of_surrounding. unfold chebyshev.
  intros (? & ? & ?). lia.
Qed.

(** X11: the upper limits of [_get_surrounding_cells] are
    [min(height, i + 1)] and [min(width, j + 1)], both included in the
    ranges: for a cell of the board in the last row the set contains the
    position just below it, in row [height], and for a cell in the last
    column the position just right of it, in column [width]; neither is a
    cell of the board. *)
Theorem X11_surrounding_cells_past_the_edge (st : state) (cell : Cell) :
  on_board st cell →
  (cell.1 + 1 = height st →
   (height st, cell.2) ∈ _get_surrounding_cells st cell ∧
   ¬ on_board st (height st, cell.2)) ∧
  (cell.2 + 1 = width st →
   (cell.1, width st) ∈ _get_surrounding_cells st cell ∧
   ¬ on_board st (cell.1, width st)).
Proof.
  unfold on_board. intros [Hr Hc]. split; intros Hlast.
  - split; [|simpl; lia]. rewrite elem_of_surrounding. simpl.
    split; [lia|]. split; [lia|]. destruct cell as [i j]. simpl in *.
    intros Heq. apply (f_equal fst) in Heq. simpl in Heq. lia.
  - split; [|simpl; lia]. rewrite elem_of_surrounding. simpl.
    split; [lia|]. split; [lia|]. destruct cell as [i j]. simpl in *.
    intros Heq. apply (f_equal snd) in Heq. simpl in Heq. lia.
Qed.

Lemma X11_surrounding_cells_past_the_edge_witness :
  on_board (init 8 8) (7, 3) ∧ (7, 3).1 + 1 = height (init 8 8) ∧
  (8, 3) ∈ _get_surrounding_cells (init 8 8) (7, 3).
Proof.
  assert (Hb : on_board (init 8 8) (7, 3)) by (unfold on_board; simpl; lia).
  assert (Hl : (7, 3).1 + 1 = height (init 8 8)) by reflexivity.
  split; [exact Hb|]. split; [exact Hl|].
  exact (proj1 (proj1 (X11_surrounding_cells_past_the_edge _ _ Hb) Hl)).
Defined.

(** X12: for a cell with [1 <= row < height] and [1 <= column < width]
    (the last row and the last column included) the set
    [_get_surrounding_cells(cell)] is the whole 3x3 block around the cell
    without the cell itself: 8 positions. *)
Theorem X12_surrounding_cells_full_ring (st : state) (cell : Cell) :
  1 ≤ cell.1 < height st → 1 ≤ cell.2 < width st →
  _get_surrounding_cells st cell = block cell ∖ {[cell]} ∧
  len (_get_surrounding_cells st cell) = 8.
Proof.
  intros Hr Hc.
  assert (Heq : _get_surrounding_cells st cell = block cell ∖ {[cell]}).
  { apply set_eq. intros p.
    rewrite elem_of_surrounding, elem_of_difference, elem_of_block,
      elem_of_singleton. unfold chebyshev. split.
    - intros (? & ? & ?). split; [lia|done].
    - intros [? ?]. split; [lia|]. split; [lia|done]. }
  split; [exact Heq|]. rewrite Heq.
  rewrite len_remove, len_block; [done|].
  apply elem_of_block. unfold chebyshev. lia.
Qed.

Lemma X12_surrounding_cells_full_ring_witness :
  1 ≤ (7, 7).1 < height (init 8 8) ∧ 1 ≤ (7, 7).2 < width (init 8 8) ∧
  len (_get_surrounding_cells (init 8 8) (7, 7)) = 8.
Proof.
  assert (Hr : 1 ≤ (7, 7).1 < height (init 8 8)) by (simpl; lia).
  assert (Hc : 1 ≤ (7, 7).2 < width (init 8 8)) by (simpl; lia).
  split; [exact Hr|]. split; [exact Hc|].
  exact (proj2 (X12_surrounding_cells_full_ring _ _ Hr Hc)).
Defined.

(** X13: [nearby_mines(cell)] is a count between 0 and 8, for every board
    and every cell, on the board or not. *)
Theorem X13_nearby_mines_bounds (g : Minesweeper.game) (cell : Cell) :
  0 ≤ Minesweeper.nearby_mines g cell ≤ 8.
Proof.
  rewrite (nearby_mines_surrounding g
             (init (Minesweeper.height g) (Minesweeper.width g)) cell)
    by done.
  split; [apply len_nonneg|].
  etrans; [|apply (len_surrounding_le
                     (init (Minesweeper.height g) (Minesweeper.width g)) cell)].
  unfold len. apply inj_le, subseteq_size. set_solver.
Qed.

(** X14: for a solver of the size of the board, the count
    [nearby_mines(cell)] that the board reports is the number of mine
    cells in the set [_get_surrounding_cells(cell)] that the solver builds,
    although that set can reach one row and one column past the board. *)
Theorem X14_board_count_matches_solver_set (g : Minesweeper.game)
    (st : state) (cell : Cell) :
  height st = Minesweeper.height g → width st = Minesweeper.width g →
  Minesweeper.nearby_mines g cell
  = len (filter (λ p, Minesweeper.in_bounds g p
                      ∧ Minesweeper.is_mine g p = true)
                (_get_surrounding_cells st cell)).
Proof.
  intros Hh Hw. rewrite (nearby_mines_surrounding g st cell Hh Hw).
  f_equal. apply set_eq. intros p.
  rewrite elem_of_intersection, elem_of_filter, elem_of_mine_set. tauto.
Qed.

Lemma X14_board_count_matches_solver_set_witness :
  height (init 1 3) = Minesweeper.height board_1x3 ∧
  width (init 1 3) = Minesweeper.width board_1x3 ∧
  Minesweeper.nearby_mines board_1x3 (0, 1)
  = len (filter (λ p, Minesweeper.in_bounds board_1x3 p
                      ∧ Minesweeper.is_mine board_1x3 p = true)
                (_get_surrounding_cells (init 1 3) (0, 1))).
Proof.
  assert (Hh : height (init 1 3) = Minesweeper.height board_1x3) by reflexivity.
  assert (Hw : width (init 1 3) = Minesweeper.width board_1x3) by reflexivity.
  split; [exact Hh|]. split; [exact Hw|].
  exact (X14_board_count_matches_solver_set board_1x3 (init 1 3) (0, 1) Hh Hw).
Defined.

(** * What a game leaves in the solver *)

Section games.
Context (g : Minesweeper.game).
Implicit Types (st : state) (moves : list Cell) (cell x : Cell).

Lemma add_knowledge_fields cell n st st' :
  add_knowledge cell n st st' →
  height st' = height st ∧ width st' = width st ∧
  moves_made st' = {[cell]} ∪ moves_made st ∧
  knowledge st' = knowledge st ++ [length (heap st)] ∧
  (∀ r s, heap st !! r = Some s → heap st' !! r = Some s) ∧
  safes st ⊆ safes st'.
Proof.
  intros (o4 & o5 & _ & _ & Hp).
  destruct (add_knowledge_mark_fields o4 o5 cell n st)
    as (H1 & H2 & H3 & H4 & _ & H6 & H7).
  destruct (propagate_grows _ _ _ Hp) as [G1 G2 G3 G4 G5 _ G7].
  split; [congruence|]. split; [congruence|].
  split; [by rewrite G3, H3|]. split; [congruence|]. split.
  - intros r s Hr. by apply G5, H6.
  - etrans; [|exact G7]. etrans; [|exact H7]. apply add_subseteq.
Qed.

Lemma plays_moves moves st :
  plays g moves st →
  moves_made st = list_to_set moves ∧
  length (knowledge st) = length moves.
Proof.
  induction 1 as [|moves cell st st' Hplay [IHm IHk] Hcell Hadd]; [done|].
  destruct (add_knowledge_fields _ _ _ _ Hadd) as (_ & _ & Hm & Hk & _).
  rewrite Hm, Hk, IHm, list_to_set_app_L, !length_app, IHk. simpl.
  split; [set_solver|done].
Qed.

End games.

(** X15: soundness.  Throughout a game (any well-formed board, any
    sequence of moves that are cells of the board without a mine, the
    counts being those [nearby_mines] reports, any order of set iteration)
    no cell in [safes] holds a mine, every cell in [mines] is a cell of the
    board that holds one, and the count of every stored sentence is the
    number of mines among its cells. *)
Theorem X15_beliefs_are_true (g : Minesweeper.game) (moves : list Cell)
    (st : state) :
  Minesweeper.well_formed g →
  plays g moves st →
  (∀ c, c ∈ safes st →
        ¬ (Minesweeper.in_bounds g c ∧ Minesweeper.is_mine g c = true)) ∧
  (∀ c, c ∈ mines st →
        Minesweeper.in_bounds g c ∧ Minesweeper.is_mine g c = true) ∧
  (∀ r, r ∈ knowledge st →
        ∃ s, heap st !! r = Some s ∧
             count s = len (filter (λ p, Minesweeper.in_bounds g p
                                         ∧ Minesweeper.is_mine g p = true)
                                   (cells s))).
Proof.
  intros _ Hplay. apply plays_sound in Hplay as ([Hsafe Hmine Hk] & _).
  split_and!.
  - intros c Hc. rewrite <- elem_of_mine_set. by apply Hsafe.
  - intros c Hc. rewrite <- elem_of_mine_set. by apply Hmine.
  - intros r Hr. destruct (Hk r Hr) as (s & Hl & Ht). exists s.
    split; [done|]. unfold truthful in Ht. rewrite Ht. f_equal.
    apply set_eq. intros p.
    rewrite elem_of_intersection, elem_of_filter, elem_of_mine_set. tauto.
Qed.

Lemma X15_beliefs_are_true_witness :
  Minesweeper.well_formed board_1x3 ∧
  plays board_1x3 [(0, 1)] (add_knowledge_exec (0, 1) 1 (init 1 3)) ∧
  (∀ c, c ∈ mines (add_knowledge_exec (0, 1) 1 (init 1 3)) →
        Minesweeper.in_bounds board_1x3 c
        ∧ Minesweeper.is_mine board_1x3 c = true).
Proof.
  assert (Hwf : Minesweeper.well_formed board_1x3).
  { unfold Minesweeper.well_formed. simpl.
    split; [lia|]. split; [lia|]. split; [reflexivity|].
    repeat constructor. }
  assert (Hplay : plays board_1x3 [(0, 1)]
                    (add_knowledge_exec (0, 1) 1 (init 1 3))).
  { apply (plays_move board_1x3 [] (0, 1) (init 1 3)).
    - apply plays_start.
    - apply (bool_decide_unpack _). vm_compute. reflexivity.
    - apply add_knowledge_exec_run. }
  split; [exact Hwf|]. split; [exact Hplay|].
  exact (proj1 (proj2 (X15_beliefs_are_true _ _ _ Hwf Hplay))).
Defined.

(** X16: a safe move never hits a mine.  At any point of a game, a cell
    returned by [make_safe_move()] is a cell of the board that holds no
    mine and is not one of the moves made so far. *)
Theorem X16_safe_move_is_safe (g : Minesweeper.game) (moves : list Cell)
    (st st' : state) (x : Cell) :
  Minesweeper.well_formed g →
  plays g moves st →
  make_safe_move st (Some x) st' →
  Minesweeper.in_bounds g x ∧ Minesweeper.is_mine g x = false ∧ x ∉ moves.
Proof.
  intros _ Hplay [_ (Hb & Hs & Hm)]%make_safe_move_inv.
  destruct (plays_moves g _ _ Hplay) as [Hmoves _].
  apply plays_sound in Hplay as ([Hsafe _ _] & Hh & Hw).
  assert (Hin : Minesweeper.in_bounds g x).
  { unfold on_board in Hb. unfold Minesweeper.in_bounds.
    by rewrite <- Hh, <- Hw. }
  split; [done|]. split.
  - apply Hsafe in Hs. rewrite elem_of_mine_set in Hs.
    destruct (Minesweeper.is_mine g x); [|done]. by destruct Hs.
  - intros Hx. apply Hm. rewrite Hmoves. by apply elem_of_list_to_set.
Qed.

Lemma X16_safe_move_is_safe_witness :
  Minesweeper.well_formed board_1x3 ∧
  plays board_1x3 [(0, 0)] (add_knowledge_exec (0, 0) 0 (init 1 3)) ∧
  make_safe_move_exec 0 (add_knowledge_exec (0, 0) 0 (init 1 3))
  = Some (0, 1) ∧
  Minesweeper.is_mine board_1x3 (0, 1) = false.
Proof.
  assert (Hwf : Minesweeper.well_formed board_1x3).
  { unfold Minesweeper.well_formed. simpl.
    split; [lia|]. split; [lia|]. split; [reflexivity|].
    repeat constructor. }
  assert (Hplay : plays board_1x3 [(0, 0)]
                    (add_knowledge_exec (0, 0) 0 (init 1 3))).
  { apply (plays_move board_1x3 [] (0, 0) (init 1 3)).
    - apply plays_start.
    - apply (bool_decide_unpack _). vm_compute. reflexivity.
    - apply add_knowledge_exec_run. }
  assert (Hexec : make_safe_move_exec 0 (add_knowledge_exec (0, 0) 0 (init 1 3))
                  = Some (0, 1)) by (vm_compute; reflexivity).
  assert (Hmove : make_safe_move (add_knowledge_exec (0, 0) 0 (init 1 3))
                    (Some (0, 1)) (add_knowledge_exec (0, 0) 0 (init 1 3))).
  { rewrite <- Hexec. apply make_safe_move_exec_run. }
  split; [exact Hwf|]. split; [exact Hplay|]. split; [exact Hexec|].
  exact (proj1 (proj2 (X16_safe_move_is_safe _ _ _ _ _ Hwf Hplay Hmove))).
Defined.

(** X17: after a game, [moves_made] is the set of the moves reported, and
    [knowledge] holds one sentence per call of [add_knowledge], repeated
    moves included. *)
Theorem X17_moves_and_sentences (g : Minesweeper.game) (moves : list Cell)
    (st : state) :
  plays g moves st →
  moves_made st = list_to_set moves ∧
  length (knowledge st) = length moves.
Proof. apply plays_moves. Qed.

Lemma X17_moves_and_sentences_witness :
  plays board_1x3 [(0, 0); (0, 0)]
    (add_knowledge_exec (0, 0) 0 (add_knowledge_exec (0, 0) 0 (init 1 3))) ∧
  length (knowledge (add_knowledge_exec (0, 0) 0
                       (add_knowledge_exec (0, 0) 0 (init 1 3)))) = 2%nat.
Proof.
  assert (Hplay : plays board_1x3 [(0, 0); (0, 0)]
    (add_knowledge_exec (0, 0) 0 (add_knowledge_exec (0, 0) 0 (init 1 3)))).
  { apply (plays_move board_1x3 [(0, 0)] (0, 0)
             (add_knowledge_exec (0, 0) 0 (init 1 3))).
    - apply (plays_move board_1x3 [] (0, 0) (init 1 3)).
      + apply plays_start.
      + apply (bool_decide_unpack _). vm_compute. reflexivity.
      + apply add_knowledge_exec_run.
    - apply (bool_decide_unpack _). vm_compute. reflexivity.
    - apply add_knowledge_exec_run. }
  split; [exact Hplay|].
  exact (proj2 (X17_moves_and_sentences _ _ _ Hplay)).
Defined.

(** X18: [add_knowledge] never touches what was stored before: it appends
    one reference to [knowledge], every sentence that existed keeps its
    cells and its count, [safes] only grows, and the board size is
    unchanged.  (Earlier sentences are never simplified: only the solver's
    own [mark_mine] and [mark_safe] do that.) *)
Theorem X18_add_knowledge_keeps_the_past (cell : Cell) (n : Z)
    (st st' : state) :
  add_knowledge cell n st st' →
  knowledge st' = knowledge st ++ [length (heap st)] ∧
  (∀ r s, heap st !! r = Some s → heap st' !! r = Some s) ∧
  safes st ⊆ safes st' ∧
  height st' = height st ∧ width st' = width st.
Proof.
  intros Hadd.
  destruct (add_knowledge_fields _ _ _ _ Hadd) as (H1 & H2 & _ & H4 & H5 & H6).
  done.
Qed.

Lemma X18_add_knowledge_keeps_the_past_witness :
  add_knowledge (0, 1) 1 (add_knowledge_exec (0, 0) 0 (init 1 3))
    (add_knowledge_exec (0, 1) 1 (add_knowledge_exec (0, 0) 0 (init 1 3))) ∧
  safes (add_knowledge_exec (0, 0) 0 (init 1 3))
  ⊆ safes (add_knowledge_exec (0, 1) 1 (add_knowledge_exec (0, 0) 0 (init 1 3))).
Proof.
  assert (Hadd : add_knowledge (0, 1) 1 (add_knowledge_exec (0, 0) 0 (init 1 3))
    (add_knowledge_exec (0, 1) 1 (add_knowledge_exec (0, 0) 0 (init 1 3))))
    by apply add_knowledge_exec_run.
  split; [exact Hadd|].
  exact (proj1 (proj2 (proj2 (X18_add_knowledge_keeps_the_past _ _ _ _ Hadd)))).
Defined.

(** X19: [make_random_move()] never changes the solver and never returns a
    played cell, a known mine or a position off the board; and when a safe
    move is available it returns [None]: the move is chosen only inside
    [if self.make_safe_move() == None]. *)
Theorem X19_make_random_move_general (st st' : state) (r : option Cell) :
  make_random_move st r st' →
  st' = st ∧
  (∀ x, r = Some x → on_board st x ∧ x ∉ moves_made st ∧ x ∉ mines st) ∧
  ((∃ x, on_board st x ∧ x ∈ safes st ∧ x ∉ moves_made st) → r = None).
Proof.
  intros (r0 & st0 & Hsafe & Hrest).
  pose proof (make_safe_move_inv _ _ _ Hsafe) as [-> Hr0].
  case_decide as Hnone.
  - subst r0. destruct Hrest as (o & Ho & -> & Hr). split; [done|].
    split.
    + intros x ->. case_decide as Hl; [done|].
      destruct Hr as (y & Hy & [= <-]). by apply elem_of_potential_moves in Hy.
    + intros (x & Hx). by destruct (Hr0 x).
  - destruct Hrest as [-> ->]. done.
Qed.

Lemma X19_make_random_move_general_witness :
  make_random_move (add_knowledge_exec (0, 0) 0 (init 1 3))
    (make_random_move_exec 0 (add_knowledge_exec (0, 0) 0 (init 1 3)))
    (add_knowledge_exec (0, 0) 0 (init 1 3)) ∧
  make_random_move_exec 0 (add_knowledge_exec (0, 0) 0 (init 1 3)) = None.
Proof.
  assert (Hrun : make_random_move (add_knowledge_exec (0, 0) 0 (init 1 3))
    (make_random_move_exec 0 (add_knowledge_exec (0, 0) 0 (init 1 3)))
    (add_knowledge_exec (0, 0) 0 (init 1 3)))
    by apply make_random_move_exec_run.
  split; [exact Hrun|].
  apply (proj2 (proj2 (X19_make_random_move_general _ _ _ Hrun))).
  exists (0, 1). split; [unfold on_board; vm_compute; repeat split; discriminate|].
  split; apply (bool_decide_unpack _); vm_compute; reflexivity.
Defined.

(** * What [add_knowledge] concludes at once *)

Section conclusions.
Implicit Types (st : state) (new : nat) (o : list Cell) (s : Sentence).

Lemma safe_loop_effect new o st s :
  heap st !! new = Some s →
  heap (foldl (safe_step new) st o) !! new
  = Some (foldl (λ s x, Sentence.mark_safe x s) s o) ∧
  safes (foldl (safe_step new) st o) = list_to_set o ∪ safes st ∧
  mines (foldl (safe_step new) st o) = mines st ∖ list_to_set o.
Proof.
  revert st s. induction o as [|x o IH]; intros st s Hs; simpl.
  - split; [done|]. split; set_solver.
  - destruct (IH (safe_step new st x) (Sentence.mark_safe x s))
      as (H1 & H2 & H3).
    { unfold safe_step. case_decide; simpl; by rewrite list_lookup_alter_eq, Hs. }
    split; [done|]. rewrite H2, H3. unfold safe_step.
    case_decide as Hin; simpl in *; unfold add, remove; split; set_solver.
Qed.

Lemma mine_loop_effect new o st s :
  heap st !! new = Some s →
  heap (foldl (mine_step new) st o) !! new
  = Some (foldl (λ s x, Sentence.mark_mine x s) s o) ∧
  mines (foldl (mine_step new) st o) = list_to_set o ∪ mines st ∧
  safes (foldl (mine_step new) st o) = safes st.
Proof.
  revert st s. induction o as [|x o IH]; intros st s Hs; simpl.
  - split; [done|]. split; [set_solver|done].
  - destruct (IH (mine_step new st x) (Sentence.mark_mine x s))
      as (H1 & H2 & H3).
    { unfold mine_step. simpl. by rewrite list_lookup_alter_eq, Hs. }
    split; [done|]. rewrite H2, H3. unfold mine_step. simpl. unfold add.
    split; [set_solver|done].
Qed.

(** The state in which lines 216-235 leave the solver. *)
Lemma add_knowledge_mark_effect o4 o5 cell n st :
  let surr_cells := _get_surrounding_cells st cell in
  let st1 := add_knowledge_mark o4 o5 cell n st in
  enumerates o4 surr_cells → enumerates o5 surr_cells →
  heap st1 !! length (heap st)
  = Some (if decide (n = len surr_cells)
          then mkSentence ∅ 0 else mkSentence surr_cells n) ∧
  cell ∈ safes st1 ∧
  (n = 0 → surr_cells ⊆ safes st1) ∧
  (n = len surr_cells → surr_cells ⊆ mines st1).
Proof.
  intros surr_cells st1 [Hnd4 Hset4] [Hnd5 Hset5]. subst st1.
  unfold add_knowledge_mark, add_knowledge_append. simpl.
  rewrite (surrounding_fields st) by done. fold surr_cells.
  set (st0 := with_knowledge _ _).
  assert (H0 : heap st0 !! length (heap st) = Some (mkSentence surr_cells n)).
  { subst st0. simpl. rewrite lookup_app_r by done. by rewrite Nat.sub_diag. }
  assert (Hc0 : cell ∈ safes st0).
  { subst st0. simpl. unfold add. set_solver. }
  set (sta := if decide (n = 0)
              then foldl (safe_step (length (heap st))) st0 o4 else st0).
  assert (Ha : heap sta !! length (heap st) = Some (mkSentence surr_cells n)
               ∧ cell ∈ safes sta ∧ (n = 0 → surr_cells ⊆ safes sta)).
  { subst sta. destruct (decide (n = 0)) as [Hz|Hz]; [|done].
    destruct (safe_loop_effect (length (heap st)) o4 st0 _ H0)
      as (H1 & H2 & _).
    rewrite mark_safe_all_at_zero in H1 by done.
    split; [done|]. rewrite H2, Hset4. split; [set_solver|]. set_solver. }
  clearbody sta. destruct Ha as (Ha & Hca & Hsa).
  destruct (decide (n = len surr_cells)) as [Hfull|Hfull]; [|done].
  destruct (mine_loop_effect (length (heap st)) o5 sta _ Ha) as (H1 & H2 & H3).
  rewrite mark_mine_all in H1; simpl; [|done| |done].
  2:{ intros x Hx. rewrite <- Hset5. by apply elem_of_list_to_set. }
  simpl in H1. rewrite H1, H2, H3, Hset5.
  split.
  - f_equal. f_equal; [set_solver|].
    rewrite Hfull. unfold len. rewrite <- Hset5 at 1.
    rewrite size_list_to_set by done. lia.
  - split; [done|]. split; [done|]. set_solver.
Qed.

End conclusions.

(** X20: after [add_knowledge(cell, 0)] the cell and every position of
    [_get_surrounding_cells(cell)] are in [safes], in every run. *)
Theorem X20_zero_count_makes_neighbours_safe (cell : Cell) (st st' : state) :
  add_knowledge cell 0 st st' →
  cell ∈ safes st' ∧ _get_surrounding_cells st cell ⊆ safes st'.
Proof.
  intros (o4 & o5 & Ho4 & Ho5 & Hp).
  destruct (add_knowledge_mark_effect o4 o5 cell 0 st Ho4 Ho5)
    as (_ & Hc & Hs & _).
  pose proof (gr_safes _ _ (propagate_grows _ _ _ Hp)) as Hg.
  split; [by apply Hg|]. etrans; [by apply Hs|done].
Qed.

Lemma X20_zero_count_makes_neighbours_safe_witness :
  add_knowledge (0, 0) 0 (init 1 3) (add_knowledge_exec (0, 0) 0 (init 1 3)) ∧
  _get_surrounding_cells (init 1 3) (0, 0)
  ⊆ safes (add_knowledge_exec (0, 0) 0 (init 1 3)).
Proof.
  assert (Hadd : add_knowledge (0, 0) 0 (init 1 3)
                   (add_knowledge_exec (0, 0) 0 (init 1 3)))
    by apply add_knowledge_exec_run.
  split; [exact Hadd|].
  exact (proj2 (X20_zero_count_makes_neighbours_safe _ _ _ Hadd)).
Defined.

(** X21: after [add_knowledge(cell, count)] with [count] equal to the
    size of [_get_surrounding_cells(cell)], every position of that set is
    in [mines], in every run. *)
Theorem X21_full_count_makes_neighbours_mines (cell : Cell) (n : Z)
    (st st' : state) :
  n = len (_get_surrounding_cells st cell) →
  add_knowledge cell n st st' →
  _get_surrounding_cells st cell ⊆ mines st'.
Proof.
  intros Hn (o4 & o5 & Ho4 & Ho5 & Hp).
  destruct (add_knowledge_mark_effect o4 o5 cell n st Ho4 Ho5)
    as (_ & _ & _ & Hm).
  pose proof (gr_mines _ _ (propagate_grows _ _ _ Hp)) as Hg.
  etrans; [by apply Hm|done].
Qed.

Lemma X21_full_count_makes_neighbours_mines_witness :
  3 = len (_get_surrounding_cells (init 3 3) (0, 0)) ∧
  add_knowledge (0, 0) 3 (init 3 3) (add_knowledge_exec (0, 0) 3 (init 3 3)) ∧
  _get_surrounding_cells (init 3 3) (0, 0)
  ⊆ mines (add_knowledge_exec (0, 0) 3 (init 3 3)).
Proof.
  assert (Hn : 3 = len (_get_surrounding_cells (init 3 3) (0, 0)))
    by (vm_compute; reflexivity).
  assert (Hadd : add_knowledge (0, 0) 3 (init 3 3)
                   (add_knowledge_exec (0, 0) 3 (init 3 3)))
    by apply add_knowledge_exec_run.
  split; [exact Hn|]. split; [exact Hadd|].
  exact (X21_full_count_makes_neighbours_mines _ _ _ _ Hn Hadd).
Defined.

(** X22: the sentence that a call [add_knowledge(cell, count)] leaves in
    [knowledge], as its last element: when [count] equals the size of
    [_get_surrounding_cells(cell)] it has been emptied, no cells and count
    0; in every other case, [count == 0] included, it is the whole set with
    the given count. *)
Theorem X22_sentence_left_in_knowledge (cell : Cell) (n : Z)
    (st st' : state) :
  add_knowledge cell n st st' →
  last (knowledge st') = Some (length (heap st)) ∧
  heap st' !! length (heap st)
  = Some (if decide (n = len (_get_surrounding_cells st cell))
          then mkSentence ∅ 0
          else mkSentence (_get_surrounding_cells st cell) n).
Proof.
  intros Hadd.
  destruct (add_knowledge_fields _ _ _ _ Hadd) as (_ & _ & _ & Hk & _).
  destruct Hadd as (o4 & o5 & Ho4 & Ho5 & Hp).
  destruct (add_knowledge_mark_effect o4 o5 cell n st Ho4 Ho5) as (Hh & _).
  split; [by rewrite Hk, last_snoc|].
  by apply (gr_heap _ _ (propagate_grows _ _ _ Hp)).
Qed.

Lemma X22_sentence_left_in_knowledge_witness :
  add_knowledge (0, 0) 3 (init 3 3) (add_knowledge_exec (0, 0) 3 (init 3 3)) ∧
  heap (add_knowledge_exec (0, 0) 3 (init 3 3)) !! 0%nat
  = Some (mkSentence ∅ 0).
Proof.
  assert (Hadd : add_knowledge (0, 0) 3 (init 3 3)
                   (add_knowledge_exec (0, 0) 3 (init 3 3)))
    by apply add_knowledge_exec_run.
  split; [exact Hadd|].
  pose proof (proj2 (X22_sentence_left_in_knowledge _ _ _ _ Hadd)) as H.
  simpl in H. rewrite H. vm_compute. reflexivity.
Defined.

(** * The two rules of [_update_sentence], in general *)

Section rules.
Implicit Types (st : state) (dc r : nat) (d s : Sentence) (T : gset Cell)
  (rest : list Cell) (x : Cell).

(** One visit of the first loop: either the cells that are not known safe
    have just become mines, or the copy has lost [x] and is not full. *)
Lemma safes_step_resolving dc st d x rest T :
  heap st !! dc = Some d → count d > 0 →
  cells d ∖ list_to_set (x :: rest) = T → len T = count d →
  T ⊆ mines (safes_step dc st x) ∨
  ∃ d', heap (safes_step dc st x) !! dc = Some d' ∧ count d' = count d ∧
        cells d' ∖ list_to_set rest = T ∧ len (cells d') ≠ count d'.
Proof.
  intros Hd Hpos HT Hlen. unfold safes_step.
  rewrite (deref_lookup _ _ _ Hd).
  set (st1 := if decide (x ∈ cells d)
              then mutate dc (remove_cell x) st else st).
  assert (Hd1 : ∃ d1, heap st1 !! dc = Some d1 ∧ count d1 = count d
                      ∧ cells d1 = cells d ∖ {[x]}).
  { subst st1. destruct (decide (x ∈ cells d)) as [Hin|Hin].
    - exists (remove_cell x d). simpl.
      by rewrite list_lookup_alter_eq, Hd.
    - exists d. split; [done|]. split; [done|]. set_solver. }
  clearbody st1. destruct Hd1 as (d1 & Hd1 & Hc1 & Hcells1).
  rewrite (deref_lookup _ _ _ Hd1).
  assert (HT1 : cells d1 ∖ list_to_set rest = T).
  { rewrite Hcells1, <- HT. set_solver. }
  destruct (decide (len (cells d1) = count d1 ∧ len (cells d1) > 0))
    as [[Hfull _]|Hnot].
  - left. rewrite collect_mines_spec, drain_spec. simpl.
    rewrite list_to_set_elements_L.
    assert (T = cells d1) as ->; [|set_solver].
    apply set_subseteq_size_eq; [set_solver|]. unfold len in *. lia.
  - right. exists d1. split; [done|]. split; [done|]. split; [done|].
    intros Heq. apply Hnot. split; [done|]. lia.
Qed.

Lemma safes_loop_resolving dc rest st d T :
  heap st !! dc = Some d → count d > 0 →
  cells d ∖ list_to_set rest = T → len T = count d →
  len (cells d) ≠ count d →
  T ⊆ mines (foldl (safes_step dc) st rest).
Proof.
  revert st d. induction rest as [|x rest IH]; intros st d Hd Hpos HT Hlen Hne.
  - exfalso. apply Hne. rewrite <- Hlen, <- HT. f_equal. set_solver.
  - simpl.
    destruct (safes_step_resolving dc st d x rest T Hd Hpos HT Hlen)
      as [Hdone|(d' & Hd' & Hc' & HT' & Hne')].
    + etrans; [exact Hdone|].
      apply (sf_mines _ _ _ (step_frame_foldl dc (safes_step dc) rest _
                               (safes_step_frame dc))).
    + apply (IH _ d'); try done; lia.
Qed.

(** One visit of the second loop: either the cells that are not known
    mines have just become safe, or the copy still waits for a mine. *)
Lemma mines_step_resolving dc st d x rest T :
  heap st !! dc = Some d → count d > 0 → x ∉ rest →
  cells d ∖ list_to_set (x :: rest) = T →
  count d = len (cells d ∩ list_to_set (x :: rest)) →
  T ⊆ safes (mines_step dc st x) ∨
  ∃ d', heap (mines_step dc st x) !! dc = Some d' ∧ count d' > 0 ∧
        cells d' ∖ list_to_set rest = T ∧
        count d' = len (cells d' ∩ list_to_set rest).
Proof.
  intros Hd Hpos Hx HT Hcount. unfold mines_step.
  rewrite (deref_lookup _ _ _ Hd).
  assert (Hxr : x ∉ (list_to_set rest : gset Cell))
    by (by rewrite elem_of_list_to_set).
  destruct (decide (x ∈ cells d)) as [Hin|Hin].
  - rewrite mutate_mutate.
    set (d1 := decr_count (remove_cell x d)).
    set (st1 := mutate dc (decr_count ∘ remove_cell x) st).
    assert (Hd1 : heap st1 !! dc = Some d1).
    { subst st1 d1. simpl. by rewrite list_lookup_alter_eq, Hd. }
    rewrite (deref_lookup _ _ _ Hd1).
    assert (HT1 : cells d1 ∖ list_to_set rest = T).
    { subst d1. simpl. rewrite <- HT. set_solver. }
    assert (Hc1 : count d1 = len (cells d1 ∩ list_to_set rest)).
    { subst d1. simpl. rewrite Hcount.
      replace ((cells d ∖ {[x]}) ∩ list_to_set rest)
        with ((cells d ∩ list_to_set (x :: rest)) ∖ {[x]}) by set_solver.
      rewrite len_remove; [done|set_solver]. }
    destruct (decide (count d1 = 0 ∧ len (cells d1) > 0)) as [[Hz _]|Hnot].
    + left. rewrite collect_safes_spec. simpl.
      rewrite list_to_set_elements_L.
      assert (cells d1 ∩ list_to_set rest = ∅)
        by (apply len_zero_empty; lia).
      set_solver.
    + destruct (decide (count d1 = 0)) as [Hz|Hz].
      * left. assert (cells d1 = ∅) as Hempty.
        { apply len_zero_empty. pose proof (len_nonneg (cells d1)).
          destruct (decide (len (cells d1) > 0)); [tauto|lia]. }
        rewrite <- HT1, Hempty. set_solver.
      * right. exists d1. split; [done|].
        pose proof (len_nonneg (cells d1 ∩ list_to_set rest)).
        split; [lia|done].
  - right. exists d. split; [done|]. split; [done|]. split.
    + rewrite <- HT. set_solver.
    + rewrite Hcount. f_equal. set_solver.
Qed.

Lemma mines_loop_resolving dc rest st d T :
  NoDup rest →
  heap st !! dc = Some d → count d > 0 →
  cells d ∖ list_to_set rest = T →
  count d = len (cells d ∩ list_to_set rest) →
  T ⊆ safes (foldl (mines_step dc) st rest).
Proof.
  revert st d. induction rest as [|x rest IH];
    intros st d Hnd Hd Hpos HT Hcount.
  - exfalso. simpl in Hcount.
    replace (cells d ∩ ∅) with (∅ : gset Cell) in Hcount by set_solver.
    rewrite len_empty in Hcount. lia.
  - apply NoDup_cons in Hnd as [Hx Hnd]. simpl.
    destruct (mines_step_resolving dc st d x rest T Hd Hpos Hx HT Hcount)
      as [Hdone|(d' & Hd' & Hp' & HT' & Hc')].
    + etrans; [exact Hdone|].
      apply (sf_safes _ _ _ (step_frame_foldl dc (mines_step dc) rest _
                               (mines_step_frame dc))).
    + by apply (IH _ d').
Qed.

(** The copy and the original, right after line 246. *)
Lemma update_copy_lookup r st s :
  heap st !! r = Some s →
  heap (update_copy r st).2 !! length (heap st) = Some s ∧
  heap (update_copy r st).2 !! r = Some s.
Proof.
  intros Hr. unfold update_copy. simpl. rewrite (deref_lookup _ _ _ Hr).
  split.
  - rewrite lookup_app_r by done. by rewrite Nat.sub_diag.
  - rewrite lookup_app_l; [done|]. by eapply lookup_lt_Some.
Qed.

End rules.

(** X23: the rule "what is left equals the count", in general.  When a
    sentence has [count > 0], the solver knows at least one safe cell, and
    the cells of the sentence that are not in [safes] are exactly [count]
    many, one call of [_update_sentence] puts every one of them in
    [mines], whatever the order of iteration. *)
Theorem X23_cells_left_are_mines (r : nat) (st st' : state) (s : Sentence) :
  heap st !! r = Some s →
  count s > 0 →
  safes st ≠ ∅ →
  len (cells s ∖ safes st) = count s →
  _update_sentence r st st' →
  cells s ∖ safes st ⊆ mines st'.
Proof.
  intros Hr Hpos Hne Hlen (o1 & o2 & [Hnd1 Hset1] & _ & ->).
  destruct (update_copy_lookup r st s Hr) as [Hdc Hr0].
  unfold update_sentence_run, update_after_safes.
  destruct (update_copy r st) as [dc st0] eqn:Hcopy.
  assert (dc = length (heap st)) as -> by (by inversion Hcopy).
  simpl in *.
  assert (Hlen' : len (cells s) > 0).
  { pose proof (subseteq_size (cells s ∖ safes st) (cells s)) as Hle.
    unfold len in *. assert (cells s ∖ safes st ⊆ cells s) by set_solver.
    specialize (Hle H). lia. }
  rewrite decide_True.
  2:{ unfold update_guard. by rewrite (deref_lookup _ _ _ Hdc),
        (deref_lookup _ _ _ Hr0). }
  etrans; [|apply (sf_mines _ _ _ (step_frame_foldl _ (mines_step _) o2 _
                                     (mines_step_frame _)))].
  destruct o1 as [|x rest].
  { simpl in Hset1. by destruct Hne. }
  simpl.
  destruct (safes_step_resolving (length (heap st)) st0 s x rest
              (cells s ∖ safes st) Hdc Hpos)
    as [Hdone|(d' & Hd' & Hc' & HT' & Hne')].
  - by rewrite Hset1.
  - done.
  - etrans; [exact Hdone|].
    apply (sf_mines _ _ _ (step_frame_foldl _ (safes_step _) rest _
                             (safes_step_frame _))).
  - apply (safes_loop_resolving _ rest _ d'); try done; lia.
Qed.

Lemma X23_cells_left_are_mines_witness :
  heap stuck_corner !! 0%nat
  = Some (mkSentence {[ (0, 1); (1, 0); (1, 1) ]} 2) ∧
  _update_sentence 0 stuck_corner (update_sentence_exec 0 stuck_corner) ∧
  cells (mkSentence {[ (0, 1); (1, 0); (1, 1) ]} 2) ∖ safes stuck_corner
  ⊆ mines (update_sentence_exec 0 stuck_corner).
Proof.
  assert (Hr : heap stuck_corner !! 0%nat
               = Some (mkSentence {[ (0, 1); (1, 0); (1, 1) ]} 2)).
  { apply (bool_decide_unpack _). vm_compute. reflexivity. }
  assert (Hu : _update_sentence 0 stuck_corner
                 (update_sentence_exec 0 stuck_corner))
    by apply update_sentence_exec_run.
  split; [exact Hr|]. split; [exact Hu|].
  refine (X23_cells_left_are_mines 0 stuck_corner _ _ Hr _ _ _ Hu).
  - reflexivity.
  - apply (bool_decide_unpack _). vm_compute. reflexivity.
  - vm_compute. reflexivity.
Defined.

(** X24: the rule "all mines found, the rest is safe", in general.  When a
    sentence has [count > 0], none of its cells is in [safes], exactly
    [count] of its cells are in [mines] and it has more cells than that,
    one call of [_update_sentence] puts every other cell of the sentence in
    [safes], whatever the order of iteration. *)
Theorem X24_cells_left_are_safe (r : nat) (st st' : state) (s : Sentence) :
  heap st !! r = Some s →
  count s > 0 →
  cells s ## safes st →
  count s = len (cells s ∩ mines st) →
  count s < len (cells s) →
  _update_sentence r st st' →
  cells s ∖ mines st ⊆ safes st'.
Proof.
  intros Hr Hpos Hdisj Hcount Hless (o1 & o2 & [Hnd1 Hset1] & Ho2 & ->).
  destruct (update_copy_lookup r st s Hr) as [Hdc Hr0].
  unfold update_sentence_run, update_after_safes in *.
  destruct (update_copy r st) as [dc st0] eqn:Hcopy.
  assert (dc = length (heap st)) as -> by (by inversion Hcopy).
  assert (Hm0 : mines st0 = mines st) by (by inversion Hcopy).
  simpl in *.
  rewrite decide_True.
  2:{ unfold update_guard. rewrite (deref_lookup _ _ _ Hdc),
        (deref_lookup _ _ _ Hr0). lia. }
  assert (Hidle : foldl (safes_step (length (heap st))) st0 o1 = st0).
  { apply (safes_loop_idle _ o1 st0 s Hdc); [|lia].
    intros x Hx Hin. apply (Hdisj x Hin). rewrite <- Hset1.
    by apply elem_of_list_to_set. }
  rewrite Hidle in *.
  destruct Ho2 as [Hnd2 Hset2]. rewrite Hm0 in Hset2.
  apply (mines_loop_resolving _ o2 st0 s); try done.
  - by rewrite Hset2.
  - by rewrite Hset2.
Qed.

(** A solver that stores [{(0,0),(0,1)} = 1] and knows [(0,0)] a mine. *)
Lemma X24_cells_left_are_safe_witness :
  let st := mkAI [mkSentence {[ (0, 0); (0, 1) ]} 1] 1 3 {[ (0, 2) ]}
                 {[ (0, 0) ]} {[ (0, 2) ]} [0%nat] in
  _update_sentence 0 st (update_sentence_exec 0 st) ∧
  cells (mkSentence {[ (0, 0); (0, 1) ]} 1) ∖ mines st
  ⊆ safes (update_sentence_exec 0 st).
Proof.
  set (st := mkAI [mkSentence {[ (0, 0); (0, 1) ]} 1] 1 3 {[ (0, 2) ]}
                  {[ (0, 0) ]} {[ (0, 2) ]} [0%nat]).
  simpl.
  assert (Hu : _update_sentence 0 st (update_sentence_exec 0 st))
    by apply update_sentence_exec_run.
  split; [exact Hu|].
  refine (X24_cells_left_are_safe 0 st _ (mkSentence {[ (0, 0); (0, 1) ]} 1)
            _ _ _ _ _ Hu).
  - reflexivity.
  - reflexivity.
  - apply (bool_decide_unpack _). vm_compute. reflexivity.
  - vm_compute. reflexivity.
  - vm_compute. reflexivity.
Defined.

(** X25: a stored sentence whose count is not positive, or that has no
    cells, gives nothing to the sweep: [_update_sentence] leaves [safes]
    and [mines] as they are.  (A sentence of count 0 makes its cells safe
    only when it is created, in [add_knowledge].) *)
Theorem X25_idle_sentence (r : nat) (st st' : state) (s : Sentence) :
  heap st !! r = Some s →
  count s ≤ 0 ∨ cells s = ∅ →
  _update_sentence r st st' →
  safes st' = safes st ∧ mines st' = mines st.
Proof.
  intros Hr Hidle (o1 & o2 & _ & _ & ->).
  destruct (update_copy_lookup r st s Hr) as [Hdc Hr0].
  unfold update_sentence_run.
  destruct (update_copy r st) as [dc st0] eqn:Hcopy.
  assert (dc = length (heap st)) as -> by (by inversion Hcopy).
  assert (Hs0 : safes st0 = safes st ∧ mines st0 = mines st)
    by (by inversion Hcopy).
  simpl in *. rewrite decide_False; [done|].
  unfold update_guard. rewrite (deref_lookup _ _ _ Hdc),
    (deref_lookup _ _ _ Hr0).
  intros [Hc Hl]. destruct Hidle as [?|Hempty]; [lia|].
  rewrite Hempty, len_empty in Hl. lia.
Qed.

Lemma X25_idle_sentence_witness :
  let st := mkAI [mkSentence {[ (0, 1); (0, 2) ]} 0] 1 3 {[ (0, 0) ]}
                 ∅ {[ (0, 0) ]} [0%nat] in
  _update_sentence 0 st (update_sentence_exec 0 st) ∧
  safes (update_sentence_exec 0 st) = safes st.
Proof.
  set (st := mkAI [mkSentence {[ (0, 1); (0, 2) ]} 0] 1 3 {[ (0, 0) ]}
                  ∅ {[ (0, 0) ]} [0%nat]).
  simpl.
  assert (Hu : _update_sentence 0 st (update_sentence_exec 0 st))
    by apply update_sentence_exec_run.
  split; [exact Hu|].
  refine (proj1 (X25_idle_sentence 0 st _ (mkSentence {[ (0, 1); (0, 2) ]} 0)
                   _ _ Hu)).
  - reflexivity.
  - left. simpl. lia.
Defined.

(** * Building the board *)

Section building.
Context (h w : Z).
Implicit Types (b : list (list bool)) (M : gset Cell) (p : Cell)
  (draws : list Cell).

Lemma shaped_empty_board : shaped h w (empty_board h w).
Proof.
  unfold shaped, empty_board. rewrite length_replicate. split; [done|].
  apply Forall_forall. intros row Hrow.
  apply list_elem_of_lookup in Hrow as [i Hi].
  apply lookup_replicate in Hi as [-> _]. apply length_replicate.
Qed.

Lemma board_at_empty_board i j :
  Minesweeper.board_at (Minesweeper.mkGame h w (empty_board h w)) i j = false.
Proof.
  unfold Minesweeper.board_at, empty_board. simpl.
  destruct (replicate _ _ !! Z.to_nat i) as [row|] eqn:Hrow; [|done].
  apply lookup_replicate in Hrow as [-> _]. simpl.
  destruct (replicate _ _ !! Z.to_nat j) as [x|] eqn:Hx; [|done].
  by apply lookup_replicate in Hx as [-> _].
Qed.

Lemma shaped_set_mine i j b : shaped h w b → shaped h w (set_mine i j b).
Proof.
  intros [Hlen Hrows]. unfold shaped, set_mine.
  rewrite length_alter. split; [done|].
  rewrite Forall_forall in Hrows. apply Forall_forall. intros row Hrow.
  apply list_elem_of_lookup in Hrow as [k Hk].
  rewrite list_lookup_alter in Hk.
  destruct (decide (Z.to_nat i = k)) as [Heq|Hne].
  - destruct (b !! Z.to_nat i) as [row0|] eqn:Hrow0; simpl in Hk; [|done].
    injection Hk as <-. rewrite length_insert.
    apply Hrows. by eapply list_elem_of_lookup_2.
  - apply Hrows. by eapply list_elem_of_lookup_2.
Qed.

Lemma board_at_set_mine i j b p :
  shaped h w b → in_range h w (i, j) → in_range h w p →
  Minesweeper.board_at (Minesweeper.mkGame h w (set_mine i j b)) p.1 p.2
  = if decide (p = (i, j)) then true
    else Minesweeper.board_at (Minesweeper.mkGame h w b) p.1 p.2.
Proof.
  intros [Hlen Hrows] [Hi Hj] [Hp1 Hp2]. simpl in Hi, Hj.
  unfold Minesweeper.board_at, set_mine. simpl.
  rewrite list_lookup_alter.
  destruct (lookup_lt_is_Some_2 b (Z.to_nat i)) as [row Hrow]; [lia|].
  assert (Hr : length row = Z.to_nat w).
  { rewrite Forall_forall in Hrows. apply Hrows.
    by eapply list_elem_of_lookup_2. }
  destruct p as [i' j']. simpl in *.
  destruct (decide (Z.to_nat i = Z.to_nat i')) as [Heq|Hne].
  - assert (i' = i) as -> by lia. rewrite Hrow. simpl.
    rewrite list_lookup_insert.
    destruct (decide (j' = j)) as [->|Hnj].
    + rewrite decide_True by (split; [done|lia]).
      by rewrite decide_True.
    + rewrite decide_False by lia.
      rewrite decide_False by congruence. done.
  - rewrite decide_False; [done|]. intros [= -> _]. done.
Qed.

(** The loop keeps the shape of the board and keeps [self.mines] equal to
    the set of fields that are [True]; when it ends, [self.mines] has the
    size asked for. *)
Lemma place_mines_inv draws target b M b' M' :
  Forall (in_range h w) draws →
  shaped h w b →
  (∀ p, p ∈ M ↔ in_range h w p
                ∧ Minesweeper.board_at (Minesweeper.mkGame h w b) p.1 p.2 = true) →
  place_mines draws target h w b M = Some (b', M') →
  shaped h w b' ∧
  (∀ p, p ∈ M' ↔ in_range h w p
                 ∧ Minesweeper.board_at (Minesweeper.mkGame h w b') p.1 p.2 = true) ∧
  len M' = target.
Proof.
  revert b M. induction draws as [|[i j] draws IH];
    intros b M Hdraws Hshape HM; simpl.
  - case_decide; [|done]. intros [= <- <-]. done.
  - case_decide as Hdone; [intros [= <- <-]; done|].
    apply Forall_cons in Hdraws as [Hij Hdraws].
    destruct (Minesweeper.board_at (Minesweeper.mkGame h w b) i j) eqn:Hat.
    + by apply IH.
    + apply IH; [done|by apply shaped_set_mine|].
      intros p. rewrite elem_of_union, elem_of_singleton, HM. split.
      * intros [->|[Hp Hlit]].
        -- split; [done|]. rewrite board_at_set_mine by done.
           by rewrite decide_True.
        -- split; [done|]. rewrite board_at_set_mine by done.
           case_decide; done.
      * intros [Hp Hlit]. rewrite board_at_set_mine in Hlit by done.
        destruct (decide (p = (i, j))); [by left|by right].
Qed.

End building.

(** X26: what [Minesweeper.__init__] builds.  Whatever the random draws,
    if the placement loop ends, the board has [height] rows of [width]
    fields, [self.mines] has exactly the number of mines asked for, and a
    cell is in [self.mines] exactly when it is a cell of the board whose
    field is [True]. *)
Theorem X26_new_game (h w target : Z) (draws : list Cell)
    (g : Minesweeper.game) (M : gset Cell) :
  0 ≤ h → 0 ≤ w →
  Forall (in_range h w) draws →
  new_game h w target draws = Some (g, M) →
  Minesweeper.well_formed g ∧
  Minesweeper.height g = h ∧ Minesweeper.width g = w ∧
  len M = target ∧
  (∀ p, p ∈ M ↔ Minesweeper.in_bounds g p ∧ Minesweeper.is_mine g p = true).
Proof.
  intros Hh Hw Hdraws. unfold new_game.
  destruct (place_mines draws target h w (empty_board h w) ∅)
    as [[b M']|] eqn:Hplace; [|done].
  intros [= <- <-].
  destruct (place_mines_inv h w draws target (empty_board h w) ∅ b M'
              Hdraws (shaped_empty_board h w))
    as ([Hlen Hrows] & HM & Hsize); [|exact Hplace|].
  { intros p. rewrite board_at_empty_board. set_solver. }
  split; [by repeat split|]. split; [done|]. split; [done|].
  split; [done|]. exact HM.
Qed.

Lemma X26_new_game_witness :
  new_game 1 3 1 [(0, 2)] = Some (board_1x3, {[ (0, 2) ]}) ∧
  Minesweeper.well_formed board_1x3 ∧ len ({[ (0, 2) ]} : gset Cell) = 1.
Proof.
  assert (Hnew : new_game 1 3 1 [(0, 2)] = Some (board_1x3, {[ (0, 2) ]})).
  { vm_compute. reflexivity. }
  assert (Hd : Forall (in_range 1 3) [(0, 2)]).
  { repeat constructor; simpl; lia. }
  split; [exact Hnew|].
  destruct (X26_new_game 1 3 1 [(0, 2)] _ _ ltac:(lia) ltac:(lia) Hd Hnew)
    as (Hwf & _ & _ & Hlen & _).
  split; [exact Hwf|exact Hlen].
Defined.



